(** * curtkr: the cursor trail ring buffer and its renderer

    A shallow embedding of [curtkr.c]: the circular buffer of recent
    pointer samples ([trail_points], [trail_head]), the render pass
    [draw_trail] as the sequence of cairo calls it issues, and the
    sample / store / render / sleep loop of [main].

    C [int]s are integers with the 32-bit wrap-around written out, C
    [double]s are the kernel's binary64 floats (every operation rounded
    to double, as with FLT_EVAL_METHOD 0), and an access outside the
    declared array has no result ([None]). *)

From Stdlib Require Import ZArith QArith Qabs Floats Lia.
From stdpp Require Import base option list.

Set Warnings "-inexact-float".

Open Scope Z_scope.

(** ** Configuration (the [#define]s) *)

Definition TRAIL_LENGTH : Z := 50.
Definition TRAIL_RADIUS : float := 3%float.
Definition UPDATE_INTERVAL : Z := 16666.
Definition TRAIL_R : float := 0.2%float.
Definition TRAIL_G : float := 0.5%float.
Definition TRAIL_B : float := 1%float.
Definition CLICK_R : float := 1%float.
Definition CLICK_G : float := 0%float.
Definition CLICK_B : float := 0%float.

(** [M_PI] as the system header <math.h> defines it, the double
    nearest to pi. *)
Definition M_PI : float := 0x1.921fb54442d18p+1%float.

(** The pointer button bits, as the system header <X11/X.h> defines
    them: [ButtonNMask = 1 << (7 + N)]. *)
Definition Button1Mask : Z := Z.shiftl 1 8.
Definition Button2Mask : Z := Z.shiftl 1 9.
Definition Button3Mask : Z := Z.shiftl 1 10.
Definition Button4Mask : Z := Z.shiftl 1 11.
Definition Button5Mask : Z := Z.shiftl 1 12.

(** ** C arithmetic *)

(** Signed 32-bit wrap-around: the representative of [z] modulo 2^32
    in [-2^31, 2^31). *)
Definition int_wrap (z : Z) : Z := (z + 2147483648) mod 4294967296 - 2147483648.
Definition int_add (a b : Z) : Z := int_wrap (a + b).
Definition int_sub (a b : Z) : Z := int_wrap (a - b).
(** C's [%] truncates towards zero. *)
Definition int_mod (a b : Z) : Z := Z.rem a b.

(** The conversion [(double)i] of an [int], exact on the whole range. *)
Definition double_of_int (z : Z) : float :=
  if z <? 0 then PrimFloat.opp (PrimFloat.of_uint63 (Uint63.of_Z (- z)))
  else PrimFloat.of_uint63 (Uint63.of_Z z).

(** The rational a finite double denotes (0 for infinities and NaN). *)
Definition Q_of_double (f : float) : Q :=
  match Prim2SF f with
  | S754_finite s m e =>
      let v := if s then Z.neg m else Z.pos m in
      if 0 <=? e then inject_Z (v * 2 ^ e)
      else Qmake v (2 ^ Z.to_pos (- e))
  | _ => 0%Q
  end.

(** ** The ring buffer *)

Record TrailPoint : Type := mkTrailPoint {
  x : Z;
  y : Z;
  valid : Z;
  clicked : Z
}.

(** The process-wide globals. *)
Record globals : Type := mkGlobals {
  trail_points : list TrailPoint;
  trail_head : Z;
  keep_running : Z
}.

(** [trail_points[i]], defined inside [TrailPoint trail_points[TRAIL_LENGTH]] only. *)
Definition array_get (a : list TrailPoint) (i : Z) : option TrailPoint :=
  if (0 <=? i) && (i <? TRAIL_LENGTH) then a !! Z.to_nat i else None.

(** [trail_points[i] = p], defined inside the array only. *)
Definition array_set (a : list TrailPoint) (i : Z) (p : TrailPoint)
  : option (list TrailPoint) :=
  if (0 <=? i) && (i <? TRAIL_LENGTH) then
    if (Z.to_nat i <? length a)%nat then Some (<[Z.to_nat i := p]> a)
    else None
  else None.

(** The slot all of whose bytes are zero. *)
Definition zero_point : TrailPoint := mkTrailPoint 0 0 0 0.

(** The globals as [main] has them after its [memset]. *)
Definition initial_globals : globals :=
  mkGlobals (replicate (Z.to_nat TRAIL_LENGTH) zero_point) 0 1.

(** What [XQueryPointer] hands back when it succeeds. *)
Record pointer_reply : Type := mkReply {
  root_x_return : Z;
  root_y_return : Z;
  mask_return : Z
}.

Definition any_button : Z :=
  Z.lor Button1Mask (Z.lor Button2Mask (Z.lor Button3Mask
    (Z.lor Button4Mask Button5Mask))).

(** The four field writes at [trail_points[trail_head]] followed by
    the move of the head. *)
Definition write_sample (px py pclicked : Z) (g : globals) : option globals :=
  a ← array_set (trail_points g) (trail_head g) (mkTrailPoint px py 1 pclicked);
  Some (mkGlobals a
          (int_mod (int_add (trail_head g) 1) TRAIL_LENGTH)
          (keep_running g)).

(** Step 2 of the loop body: store the new point. *)
Definition store_point (r : pointer_reply) (g : globals) : option globals :=
  write_sample (root_x_return r) (root_y_return r)
    (if Z.land (mask_return r) any_button =? 0 then 0 else 1) g.

(** Several points stored one after the other. *)
Fixpoint store_points (rs : list pointer_reply) (g : globals) : option globals :=
  match rs with
  | [] => Some g
  | r :: rs' => g' ← store_point r g; store_points rs' g'
  end.

(** ** The renderer *)

Inductive cairo_operator_t : Type :=
  | CAIRO_OPERATOR_SOURCE
  | CAIRO_OPERATOR_OVER.

(** The cairo calls [draw_trail] makes on its context. *)
Inductive cairo_call : Type :=
  | cairo_set_source_rgba (r g b a : float)
  | cairo_set_operator (op : cairo_operator_t)
  | cairo_paint
  | cairo_arc (xc yc radius angle1 angle2 : float)
  | cairo_fill.

(** [(trail_head - 1 - i + TRAIL_LENGTH) % TRAIL_LENGTH] *)
Definition current_index (head i : Z) : Z :=
  int_mod (int_add (int_sub (int_sub head 1) i) TRAIL_LENGTH) TRAIL_LENGTH.

(** [1.0 - ((double)i / TRAIL_LENGTH)] *)
Definition fade_alpha (i : Z) : float :=
  (1 - double_of_int i / double_of_int TRAIL_LENGTH)%float.

(** The fade cutoff of the loop, the double nearest to 0.05. *)
Definition fade_cutoff : float := 0.05%float.

(** The calls that paint one point. *)
Definition paint_point (p : TrailPoint) (alpha : float) : list cairo_call :=
  [ if clicked p =? 0
    then cairo_set_source_rgba TRAIL_R TRAIL_G TRAIL_B (alpha * 0.8)%float
    else cairo_set_source_rgba CLICK_R CLICK_G CLICK_B (alpha * 0.9)%float;
    cairo_arc (double_of_int (x p)) (double_of_int (y p))
              TRAIL_RADIUS 0%float (2 * M_PI)%float;
    cairo_fill ].

(** One turn of the [for] loop of [draw_trail], at loop counter [i]. *)
Definition draw_point (g : globals) (i : Z) : option (list cairo_call) :=
  p ← array_get (trail_points g) (current_index (trail_head g) i);
  if valid p =? 0 then Some []
  else
    let alpha := fade_alpha i in
    if (alpha <? fade_cutoff)%float then Some []
    else Some (paint_point p alpha).

(** The loop over the given counter values, in order. *)
Fixpoint draw_points (g : globals) (ages : list Z) : option (list cairo_call) :=
  match ages with
  | [] => Some []
  | i :: rest =>
      c ← draw_point g i;
      cs ← draw_points g rest;
      Some (c ++ cs)
  end.

(** Step 1 of [draw_trail]: clear the surface. *)
Definition clear_calls : list cairo_call :=
  [ cairo_set_source_rgba 0%float 0%float 0%float 0%float;
    cairo_set_operator CAIRO_OPERATOR_SOURCE;
    cairo_paint;
    cairo_set_operator CAIRO_OPERATOR_OVER ].

(** [draw_trail(cr, width, height)]: the calls made on [cr]. *)
Definition draw_trail (width height : Z) (g : globals) : option (list cairo_call) :=
  cs ← draw_points g (seqZ 0 TRAIL_LENGTH);
  Some (clear_calls ++ cs).

(** ** What the calls do to a cairo context

    Cairo is an external library, not part of this repository.  The
    definitions of this section are its drawing model as far as
    [draw_trail] exercises it: a context holds a source, an operator, a
    path and a target surface; painting with operator SOURCE and no
    clip replaces the whole target by the source; filling composites
    the source through the current path and consumes the path.  A
    surface is described by what was composited onto it, so that equal
    descriptions are equal images under any rasteriser. *)

Definition rgba : Type := float * float * float * float.

Record arc_t : Type := mkArc {
  arc_xc : float;
  arc_yc : float;
  arc_radius : float;
  arc_angle1 : float;
  arc_angle2 : float
}.

Inductive surface_t : Type :=
  | uniform (c : rgba)
      (* every pixel holds [c] *)
  | composite (below : surface_t) (op : cairo_operator_t) (src : rgba)
              (mask : option (list arc_t)).
      (* [src] combined by [op] into [below], everywhere ([None]) or
         inside a filled path *)

Record cairo_t : Type := mkCairo {
  cr_source : rgba;
  cr_operator : cairo_operator_t;
  cr_path : list arc_t;
  cr_target : surface_t
}.

(** Modelled from the spec: the effect of each cairo primitive on the
    context (the library's code is not in the repository): "clear to
    transparent" as a destructive overwrite of the whole surface, "set
    fill color+alpha", "fill circular path" with source-over
    compositing. *)
Definition cairo_exec (cr : cairo_t) (c : cairo_call) : cairo_t :=
  match c with
  | cairo_set_source_rgba r g b a =>
      mkCairo (r, g, b, a) (cr_operator cr) (cr_path cr) (cr_target cr)
  | cairo_set_operator op =>
      mkCairo (cr_source cr) op (cr_path cr) (cr_target cr)
  | cairo_paint =>
      mkCairo (cr_source cr) (cr_operator cr) (cr_path cr)
        match cr_operator cr with
        | CAIRO_OPERATOR_SOURCE => uniform (cr_source cr)
        | CAIRO_OPERATOR_OVER =>
            composite (cr_target cr) CAIRO_OPERATOR_OVER (cr_source cr) None
        end
  | cairo_arc xc yc radius angle1 angle2 =>
      mkCairo (cr_source cr) (cr_operator cr)
        (cr_path cr ++ [mkArc xc yc radius angle1 angle2]) (cr_target cr)
  | cairo_fill =>
      mkCairo (cr_source cr) (cr_operator cr) []
        (composite (cr_target cr) (cr_operator cr) (cr_source cr)
                   (Some (cr_path cr)))
  end.

Definition cairo_run (cs : list cairo_call) (cr : cairo_t) : cairo_t :=
  foldl cairo_exec cr cs.

(** One render: [draw_trail] carried out on [cr]. *)
Definition render (width height : Z) (g : globals) (cr : cairo_t) : option cairo_t :=
  cs ← draw_trail width height g;
  Some (cairo_run cs cr).

Section Raster.
(** Any way of turning a described surface into pixels: [flat] gives
    the pixels of a uniform surface, [blend] combines a source into the
    pixel below. *)
Variables (coord pixel : Type).
Variable flat : rgba -> coord -> pixel.
Variable blend :
  cairo_operator_t -> rgba -> option (list arc_t) -> coord -> pixel -> pixel.

Fixpoint pixel_at (s : surface_t) (xy : coord) : pixel :=
  match s with
  | uniform c => flat c xy
  | composite below op src mask => blend op src mask xy (pixel_at below xy)
  end.
End Raster.

(** ** The main loop *)

Inductive event : Type :=
  | ev_XQueryPointer
  | ev_print_coordinates (px py : Z)
  | ev_print_query_failed
  | ev_warn_query_failed
  | ev_cairo (c : cairo_call)
  | ev_cairo_surface_flush
  | ev_usleep (usec : Z)
  | ev_print_caught_signal (sig : Z).

(** The body of [while (keep_running)], given what [XQueryPointer]
    returned ([None] when its result is false). *)
Definition loop_body (width height : Z) (result : option pointer_reply)
    (g : globals) : option (globals * list event) :=
  match result with
  | Some r =>
      g' ← store_point r g;
      cs ← draw_trail width height g';
      Some (g', [ev_XQueryPointer;
                 ev_print_coordinates (root_x_return r) (root_y_return r)]
                ++ (ev_cairo <$> cs)
                ++ [ev_cairo_surface_flush; ev_usleep UPDATE_INTERVAL])
  | None =>
      Some (g, [ev_XQueryPointer; ev_print_query_failed; ev_warn_query_failed;
                ev_usleep 100000; ev_usleep UPDATE_INTERVAL])
  end.

Definition SIGINT : Z := 2.

Definition handle_sigint (sig : Z) (g : globals) : globals * list event :=
  (mkGlobals (trail_points g) (trail_head g) 0, [ev_print_caught_signal sig]).

(** What the outside world does around one test of the loop condition:
    whether SIGINT arrived since the previous test, and the outcome of
    the pointer query should the body run. *)
Record turn : Type := mkTurn {
  interrupted : bool;
  query : option pointer_reply
}.

(** The loop against a finite script of turns; it stops at the first
    test that finds [keep_running] zero, or when the script ends. *)
Fixpoint main_loop (width height : Z) (script : list turn) (g : globals)
  : option (globals * list event) :=
  match script with
  | [] => Some (g, [])
  | t :: rest =>
      let '(g0, t0) :=
        if interrupted t then handle_sigint SIGINT g else (g, []) in
      if keep_running g0 =? 0 then Some (g0, t0)
      else
        '(g1, t1) ← loop_body width height (query t) g0;
        '(g2, t2) ← main_loop width height rest g1;
        Some (g2, t0 ++ t1 ++ t2)
  end.

(** ** The vocabulary of the specification *)

(** The buffer is well formed: the array has its declared size and the
    head points into it. *)
Definition wf (g : globals) : Prop :=
  length (trail_points g) = Z.to_nat TRAIL_LENGTH /\
  0 <= trail_head g < TRAIL_LENGTH.

(** The slot read at age [i]. *)
Definition slot_by_age (g : globals) (i : Z) : option TrailPoint :=
  array_get (trail_points g) (current_index (trail_head g) i).

(** The samples from age 0 to age N-1, slots marked invalid skipped. *)
Definition iterate_by_age (g : globals) : list (Z * TrailPoint) :=
  omap (fun i => p ← slot_by_age g i;
                 if valid p =? 0 then None else Some (i, p))
       (seqZ 0 TRAIL_LENGTH).

(** The slot contents a stored reply leaves behind. *)
Definition point_of (r : pointer_reply) : TrailPoint :=
  mkTrailPoint (root_x_return r) (root_y_return r) 1
    (if Z.land (mask_return r) any_button =? 0 then 0 else 1).

(** The linear fade of the specification, [1 - i/N], as an exact rational. *)
Definition alpha_spec (i : Z) : Q := (1 - inject_Z i / inject_Z TRAIL_LENGTH)%Q.

(** The cull threshold of the specification, 0.05. *)
Definition cutoff_spec : Q := (5 # 100)%Q.

(** The number of [XQueryPointer] calls in a trace. *)
Definition is_query (e : event) : bool :=
  match e with ev_XQueryPointer => true | _ => false end.

Definition queries (t : list event) : nat :=
  length (List.filter is_query t).

(** The microseconds a trace spends in [usleep]. *)
Definition slept (t : list event) : Z :=
  foldr (fun e acc => match e with ev_usleep us => us + acc | _ => acc end) 0 t.

(** [g] is what the replies [rs], stored oldest first into the initial
    buffer, leave behind: read by age, the buffer is [rs] backwards,
    followed by slots never written. *)
Definition stored (rs : list pointer_reply) (g : globals) : Prop :=
  wf g /\
  trail_head g = Z.of_nat (length rs) mod TRAIL_LENGTH /\
  keep_running g = 1 /\
  forall i, 0 <= i < TRAIL_LENGTH ->
    slot_by_age g i =
      Some (from_option point_of zero_point (reverse rs !! Z.to_nat i)).

(** What the render loop issues for a sample met at a given age. *)
Definition paint_sample (s : Z * TrailPoint) : list cairo_call :=
  if (fade_alpha s.1 <? fade_cutoff)%float then []
  else paint_point s.2 (fade_alpha s.1).

(** The buffer of the end-to-end scenario: three points stored, the
    second one with a button held. *)
Definition scenario_globals : globals :=
  mkGlobals (mkTrailPoint 10 10 1 0 :: mkTrailPoint 20 20 1 1
               :: mkTrailPoint 30 30 1 0 :: replicate 47 zero_point) 3 1.

(** A buffer whose N slots all hold a valid sample. *)
Definition full_globals : globals :=
  mkGlobals (replicate (Z.to_nat TRAIL_LENGTH) (mkTrailPoint 5 7 1 0)) 0 1.

(** A context as [cairo_create] returns it: opaque black source,
    operator OVER, no path. *)
Definition cairo_create (target : surface_t) : cairo_t :=
  mkCairo (0, 0, 0, 1)%float CAIRO_OPERATOR_OVER [] target.

(** What one turn of the loop leaves in the trace when the query fails. *)
Definition query_failed_events : list event :=
  [ ev_XQueryPointer; ev_print_query_failed; ev_warn_query_failed;
    ev_usleep 100000; ev_usleep UPDATE_INTERVAL ].

(** The transparent color the pass clears to. *)
Definition transparent : rgba := (0, 0, 0, 0)%float.

(** ** [main]: set-up, loop and clean-up

    The X server and cairo are outside the program; what their calls
    return is an input. *)

(** What the calls of the set-up return in one run. *)
Record x_env : Type := mkEnv {
  display_opens : bool;              (* XOpenDisplay returned a display *)
  display_width : Z;                 (* DisplayWidth *)
  display_height : Z;                (* DisplayHeight *)
  vinfo_list_null : bool;            (* XGetVisualInfo returned NULL *)
  nitems : Z;                        (* the count it stored *)
  atom_wm_state : Z;                 (* the four XInternAtom results, *)
  atom_wm_state_above : Z;           (* None being 0 *)
  atom_wm_window_type : Z;
  atom_wm_window_type_dock : Z;
  xfixes_present : bool;             (* XFixesQueryExtension *)
  surface_null : bool;               (* cairo_xlib_surface_create gave NULL *)
  surface_status_ok : bool;          (* its status is CAIRO_STATUS_SUCCESS *)
  context_null : bool;               (* cairo_create gave NULL *)
  context_status_ok : bool           (* its status is CAIRO_STATUS_SUCCESS *)
}.

Inductive x_call : Type :=
  | call_signal
  | call_XOpenDisplay
  | call_XGetVisualInfo
  | call_XCreateColormap
  | call_XCreateWindow (width height : Z)
  | call_XInternAtom
  | call_XChangeProperty
  | call_XFixesQueryExtension
  | call_XFixesCreateRegion
  | call_XFixesSetWindowShapeRegion
  | call_XFixesDestroyRegion
  | call_XMapWindow
  | call_XFlush
  | call_cairo_xlib_surface_create (width height : Z)
  | call_cairo_create
  | call_XFree
  | call_XDestroyWindow
  | call_XFreeColormap
  | call_XUnmapWindow
  | call_XCloseDisplay
  | call_cairo_destroy
  | call_cairo_surface_destroy.

(** The lines [main] itself prints. *)
Inductive message : Type :=
  | err_open_display
  | err_no_visual
  | warn_no_xfixes
  | err_cairo_surface
  | err_cairo_context
  | msg_started
  | msg_coordinates_header
  | msg_cleaning_up
  | msg_exiting.

(** What [main] does, in order: a call with whether it delivered what
    it was asked for, a line printed, or an event of the loop. *)
Inductive main_event : Type :=
  | me_call (c : x_call) (ok : bool)
  | me_print (m : message)
  | me_loop (e : event).

Definition Atom_None : Z := 0.

(** The two EWMH properties set on the overlay window. *)
Definition set_window_properties (env : x_env) : list main_event :=
  [me_call call_XInternAtom true; me_call call_XInternAtom true]
  ++ (if negb (atom_wm_state env =? Atom_None)
         && negb (atom_wm_state_above env =? Atom_None)
      then [me_call call_XChangeProperty true] else [])
  ++ [me_call call_XInternAtom true; me_call call_XInternAtom true]
  ++ (if negb (atom_wm_window_type env =? Atom_None)
         && negb (atom_wm_window_type_dock env =? Atom_None)
      then [me_call call_XChangeProperty true] else []).

(** The empty input shape that lets clicks through. *)
Definition enable_click_through (env : x_env) : list main_event :=
  if xfixes_present env then
    [ me_call call_XFixesQueryExtension true;
      me_call call_XFixesCreateRegion true;
      me_call call_XFixesSetWindowShapeRegion true;
      me_call call_XFixesDestroyRegion true ]
  else
    [ me_call call_XFixesQueryExtension false; me_print warn_no_xfixes ].

(** [main], against what the set-up calls return and a script for the
    loop: the exit status and everything done, in order. *)
Definition main (env : x_env) (script : list turn)
  : option (Z * list main_event) :=
  let g := initial_globals in
  let t_signal := [me_call call_signal true] in
  if negb (display_opens env) then
    Some (1, t_signal
             ++ [me_call call_XOpenDisplay false; me_print err_open_display])
  else
  let width := display_width env in
  let height := display_height env in
  let t_display := t_signal ++ [me_call call_XOpenDisplay true] in
  if vinfo_list_null env || (nitems env =? 0) then
    Some (1, t_display
             ++ [ me_call call_XGetVisualInfo (negb (vinfo_list_null env));
                  me_print err_no_visual;
                  me_call call_XCloseDisplay true ])
  else
  let t_window :=
    t_display
    ++ [ me_call call_XGetVisualInfo true;
         me_call call_XCreateColormap true;
         me_call (call_XCreateWindow width height) true ]
    ++ set_window_properties env
    ++ enable_click_through env
    ++ [ me_call call_XMapWindow true; me_call call_XFlush true ] in
  let surface_good := negb (surface_null env) && surface_status_ok env in
  if negb surface_good then
    Some (1, t_window
             ++ [ me_call (call_cairo_xlib_surface_create width height) false;
                  me_print err_cairo_surface;
                  me_call call_XFree true;
                  me_call call_XDestroyWindow true;
                  me_call call_XFreeColormap true;
                  me_call call_XCloseDisplay true ])
  else
  let t_surface :=
    t_window ++ [me_call (call_cairo_xlib_surface_create width height) true] in
  let context_good := negb (context_null env) && context_status_ok env in
  if negb context_good then
    Some (1, t_surface
             ++ [ me_call call_cairo_create false;
                  me_print err_cairo_context;
                  me_call call_cairo_surface_destroy true;
                  me_call call_XFree true;
                  me_call call_XDestroyWindow true;
                  me_call call_XFreeColormap true;
                  me_call call_XCloseDisplay true ])
  else
  '(g', t_loop) ← main_loop width height script g;
  Some (0, t_surface
           ++ [ me_call call_cairo_create true;
                me_call call_XFree true;
                me_print msg_started;
                me_print msg_coordinates_header ]
           ++ (me_loop <$> t_loop)
           ++ [ me_print msg_cleaning_up;
                me_call call_cairo_destroy true;
                me_call call_cairo_surface_destroy true;
                me_call call_XFreeColormap true;
                me_call call_XUnmapWindow true;
                me_call call_XDestroyWindow true;
                me_call call_XCloseDisplay true;
                me_print msg_exiting ]).


(** What is held between a successful creating call and its release. *)
Inductive resource : Type :=
  | res_display | res_visual_info | res_colormap | res_window
  | res_region | res_surface | res_context.

Definition resource_eqb (r1 r2 : resource) : bool :=
  match r1, r2 with
  | res_display, res_display | res_visual_info, res_visual_info
  | res_colormap, res_colormap | res_window, res_window
  | res_region, res_region | res_surface, res_surface
  | res_context, res_context => true
  | _, _ => false
  end.

Definition acquires (r : resource) (e : main_event) : bool :=
  match e with
  | me_call c true =>
      match c, r with
      | call_XOpenDisplay, res_display
      | call_XGetVisualInfo, res_visual_info
      | call_XCreateColormap, res_colormap
      | call_XCreateWindow _ _, res_window
      | call_XFixesCreateRegion, res_region
      | call_cairo_xlib_surface_create _ _, res_surface
      | call_cairo_create, res_context => true
      | _, _ => false
      end
  | _ => false
  end.

Definition releases (r : resource) (e : main_event) : bool :=
  match e with
  | me_call c _ =>
      match c, r with
      | call_XCloseDisplay, res_display
      | call_XFree, res_visual_info
      | call_XFreeColormap, res_colormap
      | call_XDestroyWindow, res_window
      | call_XFixesDestroyRegion, res_region
      | call_cairo_surface_destroy, res_surface
      | call_cairo_destroy, res_context => true
      | _, _ => false
      end
  | _ => false
  end.

Definition count_events (f : main_event -> bool) (t : list main_event) : nat :=
  length (List.filter f t).

Definition is_print (e : main_event) : bool :=
  match e with me_print _ => true | _ => false end.

Definition is_loop_event (e : main_event) : bool :=
  match e with me_loop _ => true | _ => false end.

(** What follows the first [XCloseDisplay] of a trace. *)
Fixpoint after_close (t : list main_event) : list main_event :=
  match t with
  | [] => []
  | me_call call_XCloseDisplay _ :: rest => rest
  | _ :: rest => after_close rest
  end.

(** ** Further vocabulary *)

(** The replies of the turns whose query succeeded, in order. *)
Definition successful_replies (script : list turn) : list pointer_reply :=
  omap query script.

(** The number of turns whose query failed. *)
Definition failed_queries (script : list turn) : nat :=
  length (List.filter (fun t => match query t with None => true | _ => false end)
                      script).

(** No turn of the script sees the interrupt. *)
Definition uninterrupted (script : list turn) : Prop :=
  Forall (fun t => interrupted t = false) script.

(** The number of discs a pass fills. *)
Definition is_fill (c : cairo_call) : bool :=
  match c with cairo_fill => true | _ => false end.

Definition fills (cs : list cairo_call) : nat := length (List.filter is_fill cs).

(** The four components of a source color lie between 0 and 1. *)
Definition unit_range (f : float) : bool := ((0 <=? f) && (f <=? 1))%float.

Definition source_in_range (c : cairo_call) : bool :=
  match c with
  | cairo_set_source_rgba r g b a =>
      unit_range r && unit_range g && unit_range b && unit_range a
  | _ => true
  end.

(** The discs composited on a cleared surface, the first painted
    first: [None] when the surface is anything else than transparent
    with full discs of the trail radius filled over it one at a time. *)
Fixpoint discs_on (s : surface_t) : option (list (rgba * float * float)) :=
  match s with
  | uniform c =>
      match c with
      | (r, g, b, a) =>
          if (PrimFloat.eqb r 0 && PrimFloat.eqb g 0
              && PrimFloat.eqb b 0 && PrimFloat.eqb a 0)%float
          then Some [] else None
      end
  | composite below CAIRO_OPERATOR_OVER src (Some [arc]) =>
      if (PrimFloat.eqb (arc_radius arc) TRAIL_RADIUS
          && PrimFloat.eqb (arc_angle1 arc) 0
          && PrimFloat.eqb (arc_angle2 arc) (2 * M_PI))%float
      then ds ← discs_on below; Some (ds ++ [(src, arc_xc arc, arc_yc arc)])
      else None
  | composite _ _ _ _ => None
  end.

(** The disc the pass paints for a sample met at a given age, if any. *)
Definition disc_of (s : Z * TrailPoint) : list (rgba * float * float) :=
  if (fade_alpha s.1 <? fade_cutoff)%float then []
  else [ (if clicked s.2 =? 0
          then (TRAIL_R, TRAIL_G, TRAIL_B, fade_alpha s.1 * 0.8)%float
          else (CLICK_R, CLICK_G, CLICK_B, fade_alpha s.1 * 0.9)%float,
          double_of_int (x s.2), double_of_int (y s.2)) ].

Arguments TRAIL_LENGTH : simpl never.
Arguments current_index : simpl never.
Arguments fade_alpha : simpl never.
Arguments paint_sample : simpl never.
Arguments paint_point : simpl never.
Arguments slot_by_age : simpl never.
Arguments draw_point : simpl never.
Arguments draw_trail : simpl never.
Arguments store_point : simpl never.
Arguments clear_calls : simpl never.

(** ** Index arithmetic *)

Lemma int_wrap_small (z : Z) :
  - 2147483648 <= z < 2147483648 -> int_wrap z = z.
Proof.
  intros Hz. unfold int_wrap.
  rewrite Z.mod_small by lia. lia.
Qed.

Lemma next_head_mod (h : Z) :
  0 <= h < TRAIL_LENGTH ->
  int_mod (int_add h 1) TRAIL_LENGTH = (h + 1) mod TRAIL_LENGTH.
Proof.
  unfold int_mod, int_add, TRAIL_LENGTH. intros Hh.
  rewrite int_wrap_small by lia.
  apply Z.rem_mod_nonneg; lia.
Qed.

Lemma current_index_mod (h i : Z) :
  0 <= h < TRAIL_LENGTH -> 0 <= i < TRAIL_LENGTH ->
  current_index h i = (h - 1 - i) mod TRAIL_LENGTH.
Proof.
  unfold current_index, int_mod, int_add, int_sub, TRAIL_LENGTH. intros Hh Hi.
  rewrite (int_wrap_small (h - 1)) by lia.
  rewrite (int_wrap_small (h - 1 - i)) by lia.
  rewrite (int_wrap_small (h - 1 - i + 50)) by lia.
  rewrite Z.rem_mod_nonneg by lia.
  replace (h - 1 - i + 50) with (h - 1 - i + 1 * 50) by lia.
  apply Z.mod_add. lia.
Qed.

Lemma current_index_range (h i : Z) :
  0 <= h < TRAIL_LENGTH -> 0 <= i < TRAIL_LENGTH ->
  0 <= current_index h i < TRAIL_LENGTH.
Proof.
  intros Hh Hi. rewrite current_index_mod by assumption.
  apply Z.mod_pos_bound. unfold TRAIL_LENGTH. lia.
Qed.

(** The age at which a given slot is read. *)
Lemma current_index_inv (h j : Z) :
  0 <= h < TRAIL_LENGTH -> 0 <= j < TRAIL_LENGTH ->
  current_index h ((h - 1 - j) mod TRAIL_LENGTH) = j.
Proof.
  intros Hh Hj.
  assert (0 <= (h - 1 - j) mod TRAIL_LENGTH < TRAIL_LENGTH) as Hr
    by (apply Z.mod_pos_bound; unfold TRAIL_LENGTH; lia).
  rewrite current_index_mod by assumption.
  rewrite Zminus_mod_idemp_r.
  replace (h - 1 - (h - 1 - j)) with j by lia.
  apply Z.mod_small. assumption.
Qed.

(** ** Array accesses inside a well-formed buffer *)

Lemma in_array (i : Z) :
  0 <= i < TRAIL_LENGTH -> (0 <=? i) && (i <? TRAIL_LENGTH) = true.
Proof.
  intros [Hlo Hhi]. apply andb_true_intro.
  split; [apply Z.leb_le | apply Z.ltb_lt]; assumption.
Qed.

Lemma array_get_lookup (a : list TrailPoint) (i : Z) :
  0 <= i < TRAIL_LENGTH -> array_get a i = a !! Z.to_nat i.
Proof.
  intros Hi. unfold array_get. rewrite in_array by assumption. reflexivity.
Qed.

Lemma array_get_is_Some (a : list TrailPoint) (i : Z) :
  length a = Z.to_nat TRAIL_LENGTH -> 0 <= i < TRAIL_LENGTH ->
  is_Some (array_get a i).
Proof.
  intros Hlen Hi. rewrite array_get_lookup by assumption.
  apply lookup_lt_is_Some. lia.
Qed.

Lemma array_set_insert (a : list TrailPoint) (i : Z) (p : TrailPoint) :
  length a = Z.to_nat TRAIL_LENGTH -> 0 <= i < TRAIL_LENGTH ->
  array_set a i p = Some (<[Z.to_nat i := p]> a).
Proof.
  intros Hlen Hi. unfold array_set. rewrite in_array by assumption.
  assert ((Z.to_nat i <? length a)%nat = true) as -> by (apply Nat.ltb_lt; lia).
  reflexivity.
Qed.

Lemma slot_by_age_is_Some (g : globals) (i : Z) :
  wf g -> 0 <= i < TRAIL_LENGTH -> is_Some (slot_by_age g i).
Proof.
  intros [Hlen Hh] Hi. unfold slot_by_age.
  apply array_get_is_Some; [assumption|].
  apply current_index_range; assumption.
Qed.

Lemma slot_by_age_lookup (g : globals) (i : Z) :
  wf g -> 0 <= i < TRAIL_LENGTH ->
  slot_by_age g i = trail_points g !! Z.to_nat (current_index (trail_head g) i).
Proof.
  intros [_ Hh] Hi. unfold slot_by_age.
  apply array_get_lookup, current_index_range; assumption.
Qed.

Lemma wf_initial : wf initial_globals.
Proof. split; [reflexivity | unfold TRAIL_LENGTH; simpl; lia]. Qed.

(** ** Storing a point *)

Lemma store_point_wf (r : pointer_reply) (g : globals) :
  wf g ->
  store_point r g =
    Some (mkGlobals (<[Z.to_nat (trail_head g) := point_of r]> (trail_points g))
                    ((trail_head g + 1) mod TRAIL_LENGTH)
                    (keep_running g)).
Proof.
  intros [Hlen Hh]. unfold store_point, write_sample.
  fold (point_of r).
  rewrite array_set_insert by assumption. simpl.
  rewrite next_head_mod by assumption. reflexivity.
Qed.

Lemma store_point_preserves_wf (r : pointer_reply) (g g' : globals) :
  wf g -> store_point r g = Some g' -> wf g'.
Proof.
  intros Hwf Hst. rewrite store_point_wf in Hst by assumption.
  injection Hst as <-. destruct Hwf as [Hlen Hh]. split; simpl.
  - rewrite length_insert. assumption.
  - apply Z.mod_pos_bound. unfold TRAIL_LENGTH. lia.
Qed.

Lemma store_points_app (rs1 rs2 : list pointer_reply) (g : globals) :
  store_points (rs1 ++ rs2) g = g' ← store_points rs1 g; store_points rs2 g'.
Proof.
  revert g. induction rs1 as [|r rs1 IH]; intros g; simpl; [reflexivity|].
  destruct (store_point r g) as [g1|]; simpl; [apply IH | reflexivity].
Qed.

(** ** The buffer read by age *)

Lemma stored_initial : stored [] initial_globals.
Proof.
  split; [apply wf_initial|]. split; [reflexivity|]. split; [reflexivity|].
  intros i Hi.
  rewrite slot_by_age_lookup by (apply wf_initial || exact Hi).
  unfold initial_globals. cbn [trail_points trail_head].
  assert (0 <= 0 < TRAIL_LENGTH) as H0 by (split; reflexivity || discriminate).
  pose proof (current_index_range 0 i H0 Hi) as Hr.
  rewrite reverse_nil, lookup_nil. cbn [from_option].
  apply lookup_replicate_2. clear - Hr. lia.
Qed.

(** After the head has moved, age [i] reads where age [i - 1] read. *)
Lemma current_index_next (h i : Z) :
  0 <= h < TRAIL_LENGTH -> 0 < i < TRAIL_LENGTH ->
  current_index ((h + 1) mod TRAIL_LENGTH) i = current_index h (i - 1).
Proof.
  intros Hh Hi.
  assert (0 < TRAIL_LENGTH) as HN by reflexivity.
  rewrite !current_index_mod by (try apply Z.mod_pos_bound; lia).
  replace ((h + 1) mod TRAIL_LENGTH - 1 - i)
    with ((h + 1) mod TRAIL_LENGTH - (1 + i)) by lia.
  rewrite Zminus_mod_idemp_l. f_equal. lia.
Qed.

(** Age 0 reads the slot written last. *)
Lemma current_index_newest (h : Z) :
  0 <= h < TRAIL_LENGTH ->
  current_index ((h + 1) mod TRAIL_LENGTH) 0 = h.
Proof.
  intros Hh.
  assert (0 < TRAIL_LENGTH) as HN by reflexivity.
  rewrite current_index_mod by (try apply Z.mod_pos_bound; lia).
  replace ((h + 1) mod TRAIL_LENGTH - 1 - 0)
    with ((h + 1) mod TRAIL_LENGTH - 1) by lia.
  rewrite Zminus_mod_idemp_l.
  replace (h + 1 - 1) with h by lia.
  apply Z.mod_small. assumption.
Qed.

(** No other age reads the slot written last. *)
Lemma current_index_older (h i : Z) :
  0 <= h < TRAIL_LENGTH -> 0 <= i < TRAIL_LENGTH - 1 ->
  current_index h i <> h.
Proof.
  intros Hh Hi.
  assert (0 < TRAIL_LENGTH) as HN by reflexivity.
  rewrite current_index_mod by lia. intros Heq.
  destruct (Z_lt_le_dec (h - 1 - i) 0) as [Hneg | Hpos].
  - replace (h - 1 - i)
      with (h - 1 - i + TRAIL_LENGTH + (-1) * TRAIL_LENGTH) in Heq by lia.
    rewrite Z.mod_add, Z.mod_small in Heq by lia. lia.
  - rewrite Z.mod_small in Heq by lia. lia.
Qed.

Lemma stored_store_point (rs : list pointer_reply) (r : pointer_reply) (g : globals) :
  stored rs g ->
  exists g', store_point r g = Some g' /\ stored (rs ++ [r]) g'.
Proof.
  intros (Hwf & Hhead & Hrun & Hslots).
  pose proof (store_point_wf r g Hwf) as Hst.
  pose proof (store_point_preserves_wf r g _ Hwf Hst) as Hwf'.
  eexists. split; [exact Hst|].
  pose proof Hwf as [Hlen Hh].
  assert (0 < TRAIL_LENGTH) as HN by reflexivity.
  split; [exact Hwf'|]. split; [|split].
  - cbn [trail_head].
    rewrite Hhead, length_app, Nat2Z.inj_add.
    change (Z.of_nat (length [r])) with 1.
    apply Zplus_mod_idemp_l.
  - exact Hrun.
  - intros i Hi.
    rewrite slot_by_age_lookup by (exact Hwf' || exact Hi).
    cbn [trail_points trail_head].
    rewrite reverse_app, reverse_singleton.
    destruct (decide (i = 0)) as [-> | Hne].
    + rewrite current_index_newest by assumption.
      rewrite list_lookup_insert_eq by (rewrite Hlen; clear - Hh; lia).
      reflexivity.
    + assert (0 <= i - 1 < TRAIL_LENGTH - 1) as Hi' by (clear - Hi Hne; lia).
      rewrite current_index_next by (clear - Hh Hi Hne; lia).
      pose proof (current_index_older _ _ Hh Hi') as Hother.
      assert (0 <= i - 1 < TRAIL_LENGTH) as Hi'' by (clear - Hi'; lia).
      pose proof (current_index_range _ _ Hh Hi'') as Hr.
      specialize (Hslots (i - 1) Hi'').
      rewrite slot_by_age_lookup in Hslots by (exact Hwf || exact Hi'').
      rewrite list_lookup_insert_ne by (clear - Hother Hr Hh; lia).
      rewrite Hslots.
      replace (Z.to_nat i) with (S (Z.to_nat (i - 1))) by (clear - Hi Hne; lia).
      reflexivity.
Qed.

Lemma store_points_stored (rs : list pointer_reply) :
  exists g, store_points rs initial_globals = Some g /\ stored rs g.
Proof.
  induction rs as [|r rs (g & Hg & Hst)] using rev_ind.
  - exists initial_globals. split; [reflexivity | apply stored_initial].
  - destruct (stored_store_point rs r g Hst) as (g' & Hg' & Hst').
    exists g'. split; [|assumption].
    rewrite store_points_app, Hg. simpl. rewrite Hg'. reflexivity.
Qed.

(** Reading a list by position over a run of ages pairs each age with
    the element at that position. *)
Lemma omap_ages_zip {A : Type} (F : Z -> option (Z * A)) (k : nat) :
  forall (l : list A) (m : Z),
    (forall i, m <= i < m + Z.of_nat k ->
               F i = pair i <$> l !! Z.to_nat (i - m)) ->
    omap F (seqZ m (Z.of_nat k)) = zip (seqZ m (Z.of_nat k)) l.
Proof.
  induction k as [|k IH]; intros l m HF; [reflexivity|].
  rewrite seqZ_cons by lia.
  replace (Z.pred (Z.of_nat (S k))) with (Z.of_nat k) by lia.
  cbn [omap list_omap]. rewrite (HF m) by lia.
  rewrite Z.sub_diag. destruct l as [|a l]; simpl.
  - rewrite (IH [] (Z.succ m)).
    + apply zip_with_nil_r.
    + intros i Hi. rewrite HF by lia. rewrite !lookup_nil. reflexivity.
  - f_equal. apply IH. intros i Hi. rewrite HF by lia.
    replace (Z.to_nat (i - m)) with (S (Z.to_nat (i - Z.succ m))) by lia.
    reflexivity.
Qed.

Lemma iterate_by_age_stored (rs : list pointer_reply) (g : globals) :
  stored rs g ->
  iterate_by_age g = zip (seqZ 0 TRAIL_LENGTH) (point_of <$> reverse rs).
Proof.
  intros (Hwf & _ & _ & Hslots). unfold iterate_by_age.
  change TRAIL_LENGTH with (Z.of_nat 50).
  apply omap_ages_zip. intros i Hi.
  rewrite Hslots by (unfold TRAIL_LENGTH; lia).
  rewrite Z.sub_0_r, list_lookup_fmap.
  destruct (reverse rs !! Z.to_nat i) as [r|]; reflexivity.
Qed.

(** ** The render loop in terms of the samples read by age *)

Lemma draw_point_slot (g : globals) (i : Z) (p : TrailPoint) :
  slot_by_age g i = Some p ->
  draw_point g i = Some (if valid p =? 0 then [] else paint_sample (i, p)).
Proof.
  unfold slot_by_age, draw_point, paint_sample. intros ->. simpl.
  destruct (valid p =? 0); [reflexivity|].
  destruct (fade_alpha i <? fade_cutoff)%float; reflexivity.
Qed.

Lemma draw_points_iterate (g : globals) (ages : list Z) :
  wf g ->
  Forall (fun i => 0 <= i < TRAIL_LENGTH) ages ->
  draw_points g ages =
    Some (concat (paint_sample <$>
            omap (fun i => p ← slot_by_age g i;
                           if valid p =? 0 then None else Some (i, p)) ages)).
Proof.
  intros Hwf Hages. induction Hages as [|i ages Hi _ IH]; [reflexivity|].
  destruct (slot_by_age_is_Some g i Hwf Hi) as [p Hp].
  cbn [draw_points omap list_omap].
  rewrite (draw_point_slot g i p Hp), IH, Hp. cbn [mbind option_bind].
  destruct (valid p =? 0); reflexivity.
Qed.

Lemma draw_trail_iterate (width height : Z) (g : globals) :
  wf g ->
  draw_trail width height g =
    Some (clear_calls ++ concat (paint_sample <$> iterate_by_age g)).
Proof.
  intros Hwf. unfold draw_trail, iterate_by_age.
  rewrite draw_points_iterate; [reflexivity | assumption |].
  apply Forall_forall. intros i Hi. apply elem_of_seqZ in Hi. lia.
Qed.

(** ** The loop never leaves the array *)

Lemma loop_body_wf (width height : Z) (q : option pointer_reply) (g : globals) :
  wf g ->
  exists g' t, loop_body width height q g = Some (g', t) /\ wf g'.
Proof.
  intros Hwf. destruct q as [r|]; cbn [loop_body].
  - pose proof (store_point_wf r g Hwf) as Hst.
    pose proof (store_point_preserves_wf r g _ Hwf Hst) as Hwf'.
    rewrite Hst. cbn [mbind option_bind].
    rewrite (draw_trail_iterate width height _ Hwf'). cbn [mbind option_bind].
    eexists _, _. split; [reflexivity | assumption].
  - eexists _, _. split; [reflexivity | assumption].
Qed.

Lemma main_loop_wf (width height : Z) (script : list turn) :
  forall g, wf g ->
    exists g' t, main_loop width height script g = Some (g', t) /\ wf g'.
Proof.
  induction script as [|t script IH]; intros g Hwf.
  - exists g, []. split; [reflexivity | assumption].
  - cbn [main_loop]. destruct (interrupted t).
    + cbn [handle_sigint keep_running]. cbn [Z.eqb].
      eexists _, _. split; [reflexivity|]. exact Hwf.
    + destruct (keep_running g =? 0).
      * eexists _, _. split; [reflexivity | assumption].
      * destruct (loop_body_wf width height (query t) g Hwf) as (g1 & t1 & H1 & Hwf1).
        destruct (IH g1 Hwf1) as (g2 & t2 & H2 & Hwf2).
        rewrite H1. cbn [mbind option_bind]. rewrite H2. cbn [mbind option_bind].
        eexists _, _. split; [reflexivity | assumption].
Qed.

(** ** The fade, age by age *)

(** A property checked at every age holds at every age. *)
Lemma ages_forall (P : Z -> bool) :
  forallb P (seqZ 0 TRAIL_LENGTH) = true ->
  forall i, 0 <= i < TRAIL_LENGTH -> P i = true.
Proof.
  intros Hall i Hi. rewrite forallb_forall in Hall. apply Hall.
  apply list_elem_of_In, elem_of_seqZ. lia.
Qed.

(** The double computed at each age is the exact fade up to rounding. *)
Lemma fade_alpha_error (i : Z) :
  0 <= i < TRAIL_LENGTH ->
  (Qabs (Q_of_double (fade_alpha i) - alpha_spec i) <= 1 # 2 ^ 53)%Q.
Proof.
  intros Hi. apply Qle_bool_iff.
  revert i Hi. apply ages_forall. vm_compute. reflexivity.
Qed.

(** The comparison with the cutoff comes out true from age 48 on. *)
Lemma cull_decision (i : Z) :
  0 <= i < TRAIL_LENGTH ->
  (fade_alpha i <? fade_cutoff)%float = (48 <=? i).
Proof.
  intros Hi.
  apply (ages_forall
           (fun i => Bool.eqb (fade_alpha i <? fade_cutoff)%float (48 <=? i)))
    in Hi; [|vm_compute; reflexivity].
  apply Bool.eqb_prop. exact Hi.
Qed.

Lemma alpha_spec_below_cutoff (i : Z) :
  (alpha_spec i < cutoff_spec)%Q <-> 48 <= i.
Proof.
  unfold alpha_spec, cutoff_spec, TRAIL_LENGTH, Qlt. cbn. lia.
Qed.

Lemma age_beyond_95_percent (i : Z) :
  ((95 # 100) * inject_Z TRAIL_LENGTH < inject_Z i)%Q <-> 48 <= i.
Proof.
  unfold TRAIL_LENGTH, Qlt. cbn. lia.
Qed.

Lemma paint_point_not_nil (p : TrailPoint) (alpha : float) :
  paint_point p alpha <> [].
Proof. unfold paint_point. discriminate. Qed.

(** What one turn of the loop issues for a valid slot. *)
Lemma draw_point_valid (g : globals) (i : Z) (p : TrailPoint) :
  slot_by_age g i = Some p -> valid p <> 0 ->
  draw_point g i =
    Some (if (fade_alpha i <? fade_cutoff)%float then []
          else paint_point p (fade_alpha i)).
Proof.
  intros Hp Hv. rewrite (draw_point_slot g i p Hp).
  apply Z.eqb_neq in Hv. rewrite Hv. reflexivity.
Qed.

Lemma fade_alpha_decreasing (i1 i2 : Z) :
  0 <= i1 -> i1 < i2 -> i2 < TRAIL_LENGTH ->
  (fade_alpha i2 <? fade_alpha i1)%float = true /\
  (Q_of_double (fade_alpha i2) < Q_of_double (fade_alpha i1))%Q.
Proof.
  intros H1 H12 H2.
  pose (check := fun a b : Z =>
          implb (a <? b)
            ((fade_alpha b <? fade_alpha a)%float &&
             negb (Qle_bool (Q_of_double (fade_alpha a))
                            (Q_of_double (fade_alpha b))))).
  assert (check i1 i2 = true) as Hc.
  { apply (ages_forall (fun b => check i1 b)); [|lia].
    apply (ages_forall
             (fun a => forallb (fun b => check a b) (seqZ 0 TRAIL_LENGTH)));
      [vm_compute; reflexivity | lia]. }
  unfold check in Hc. apply Z.ltb_lt in H12. rewrite H12 in Hc.
  cbn [implb] in Hc. apply andb_prop in Hc as [Hf Hq]. split; [exact Hf|].
  apply Qnot_le_lt. intros Hle. apply Qle_bool_iff in Hle.
  rewrite Hle in Hq. discriminate.
Qed.

(** * Properties of the specification *)

(** C3 (fade monotonicity).  In a render pass the opacity factor of a
    valid sample at age [i] is the C expression [1.0 - (double)i / N]
    evaluated in doubles, which is the linear fade [1 - i/N] up to one
    rounding (at most 2^-53 away); and of two valid samples the one
    with the smaller age gets the strictly greater factor. *)
Theorem fade_monotonicity (g : globals) (i1 i2 : Z) (p1 p2 : TrailPoint) :
  0 <= i1 -> i1 < i2 -> i2 < TRAIL_LENGTH ->
  slot_by_age g i1 = Some p1 -> valid p1 <> 0 ->
  slot_by_age g i2 = Some p2 -> valid p2 <> 0 ->
  let alpha := fun i => (1 - double_of_int i / double_of_int TRAIL_LENGTH)%float in
  draw_point g i1 =
    Some (if (alpha i1 <? fade_cutoff)%float then [] else paint_point p1 (alpha i1)) /\
  draw_point g i2 =
    Some (if (alpha i2 <? fade_cutoff)%float then [] else paint_point p2 (alpha i2)) /\
  (Qabs (Q_of_double (alpha i1) - alpha_spec i1) <= 1 # 2 ^ 53)%Q /\
  (Qabs (Q_of_double (alpha i2) - alpha_spec i2) <= 1 # 2 ^ 53)%Q /\
  (alpha i2 <? alpha i1)%float = true /\
  (Q_of_double (alpha i2) < Q_of_double (alpha i1))%Q /\
  (alpha_spec i2 < alpha_spec i1)%Q.
Proof.
  intros H1 H12 H2 Hp1 Hv1 Hp2 Hv2 alpha.
  change alpha with fade_alpha.
  split; [exact (draw_point_valid g i1 p1 Hp1 Hv1)|].
  split; [exact (draw_point_valid g i2 p2 Hp2 Hv2)|].
  split; [apply fade_alpha_error; lia|].
  split; [apply fade_alpha_error; lia|].
  destruct (fade_alpha_decreasing i1 i2 H1 H12 H2) as [Hf Hq].
  split; [exact Hf|]. split; [exact Hq|].
  unfold alpha_spec, TRAIL_LENGTH, Qlt. cbn. lia.
Qed.

Lemma fade_monotonicity_witness :
  (fade_alpha 1 <? fade_alpha 0)%float = true.
Proof.
  refine (proj1 (proj2 (proj2 (proj2 (proj2
    (fade_monotonicity scenario_globals 0 1
       (mkTrailPoint 30 30 1 0) (mkTrailPoint 20 20 1 1) _ _ _ _ _ _ _)))))).
  - lia.
  - lia.
  - reflexivity.
  - reflexivity.
  - vm_compute. lia.
  - reflexivity.
  - vm_compute. lia.
Defined.

(** C4 (cull threshold).  A valid sample at age [i] is left unpainted
    exactly when [1 - i/N < 0.05], that is when [i > 0.95 N], that is
    from age 48 on; up to age 47 it is painted.  The exact fades at
    the boundary are 0.06 and 0.04, and the doubles the loop computes
    there are within one rounding of them.  A culled sample issues no
    call and leaves the ages of the other samples as they are: the
    pass is the clear followed by what each sample issues at its own
    age. *)
Theorem cull_threshold (g : globals) (i : Z) (p : TrailPoint) :
  wf g -> 0 <= i < TRAIL_LENGTH ->
  slot_by_age g i = Some p -> valid p <> 0 ->
  (draw_point g i = Some [] <-> (alpha_spec i < cutoff_spec)%Q) /\
  ((alpha_spec i < cutoff_spec)%Q <->
   ((95 # 100) * inject_Z TRAIL_LENGTH < inject_Z i)%Q) /\
  (draw_point g i = Some [] <-> 48 <= i) /\
  (i <= 47 -> draw_point g i = Some (paint_point p (fade_alpha i))) /\
  (alpha_spec 47 == 6 # 100)%Q /\ (alpha_spec 48 == 4 # 100)%Q /\
  (Qabs (Q_of_double (fade_alpha 47) - (6 # 100)) <= 1 # 2 ^ 53)%Q /\
  (Qabs (Q_of_double (fade_alpha 48) - (4 # 100)) <= 1 # 2 ^ 53)%Q /\
  (fade_alpha 47 <? fade_cutoff)%float = false /\
  (fade_alpha 48 <? fade_cutoff)%float = true /\
  forall width height,
    draw_trail width height g =
      Some (clear_calls ++ concat (paint_sample <$> iterate_by_age g)).
Proof.
  intros Hwf Hi Hp Hv.
  assert (draw_point g i = Some [] <-> 48 <= i) as Hcull.
  { rewrite (draw_point_valid g i p Hp Hv), (cull_decision i Hi).
    destruct (Z.leb_spec 48 i) as [Hge | Hlt].
    - split; [intros _; exact Hge | reflexivity].
    - split; [|lia]. intros Heq. injection Heq as Heq.
      destruct (paint_point_not_nil _ _ Heq). }
  split; [rewrite alpha_spec_below_cutoff; exact Hcull|].
  split; [rewrite alpha_spec_below_cutoff, age_beyond_95_percent; reflexivity|].
  split; [exact Hcull|].
  split.
  { intros Hle. rewrite (draw_point_valid g i p Hp Hv), (cull_decision i Hi).
    destruct (Z.leb_spec 48 i) as [Hge | Hlt]; [lia | reflexivity]. }
  split; [reflexivity|]. split; [reflexivity|].
  split; [apply Qle_bool_iff; vm_compute; reflexivity|].
  split; [apply Qle_bool_iff; vm_compute; reflexivity|].
  split; [vm_compute; reflexivity|]. split; [vm_compute; reflexivity|].
  intros width height. apply draw_trail_iterate. exact Hwf.
Qed.

Lemma cull_threshold_witness :
  draw_point full_globals 48 = Some [] <-> 48 <= 48.
Proof.
  refine (proj1 (proj2 (proj2
    (cull_threshold full_globals 48 (mkTrailPoint 5 7 1 0) _ _ _ _)))).
  - split; [reflexivity | unfold TRAIL_LENGTH; simpl; lia].
  - unfold TRAIL_LENGTH. lia.
  - reflexivity.
  - simpl. lia.
Defined.

(** C5 (click color selection).  A valid sample that is not culled
    sets the click color, pure red (1, 0, 0), with opacity
    [alpha * 0.9] when its [clicked] flag is set, and the trail color
    (0.2, 0.5, 1.0) with opacity [alpha * 0.8] when it is not; the disc
    follows in both cases. *)
Theorem click_color_selection (g : globals) (i : Z) (p : TrailPoint) :
  slot_by_age g i = Some p -> valid p <> 0 ->
  (fade_alpha i <? fade_cutoff)%float = false ->
  let disc :=
    [ cairo_arc (double_of_int (x p)) (double_of_int (y p))
                3%float 0%float (2 * M_PI)%float;
      cairo_fill ] in
  (clicked p <> 0 ->
   draw_point g i =
     Some (cairo_set_source_rgba 1%float 0%float 0%float (fade_alpha i * 0.9)%float
           :: disc)) /\
  (clicked p = 0 ->
   draw_point g i =
     Some (cairo_set_source_rgba 0.2%float 0.5%float 1%float (fade_alpha i * 0.8)%float
           :: disc)).
Proof.
  intros Hp Hv Hshown disc.
  rewrite (draw_point_valid g i p Hp Hv), Hshown. unfold paint_point.
  split; intros Hc.
  - apply Z.eqb_neq in Hc. rewrite Hc. reflexivity.
  - rewrite Hc. reflexivity.
Qed.

Lemma click_color_selection_witness :
  draw_point scenario_globals 1 =
    Some [ cairo_set_source_rgba 1%float 0%float 0%float (0.98 * 0.9)%float;
           cairo_arc 20%float 20%float 3%float 0%float (2 * M_PI)%float;
           cairo_fill ] /\
  draw_point scenario_globals 0 =
    Some [ cairo_set_source_rgba 0.2%float 0.5%float 1%float (1 * 0.8)%float;
           cairo_arc 30%float 30%float 3%float 0%float (2 * M_PI)%float;
           cairo_fill ].
Proof.
  split.
  - refine (proj1 (click_color_selection scenario_globals 1
                     (mkTrailPoint 20 20 1 1) _ _ _) _).
    + reflexivity.
    + vm_compute. lia.
    + reflexivity.
    + vm_compute. lia.
  - refine (proj2 (click_color_selection scenario_globals 0
                     (mkTrailPoint 30 30 1 0) _ _ _) _).
    + reflexivity.
    + vm_compute. lia.
    + reflexivity.
    + reflexivity.
Defined.

(** ** A full buffer *)

Lemma stored_all_valid (rs : list pointer_reply) (g : globals) :
  stored rs g -> TRAIL_LENGTH <= Z.of_nat (length rs) ->
  Forall (fun p => valid p = 1) (trail_points g).
Proof.
  intros (Hwf & _ & _ & Hslots) Hfull. pose proof Hwf as [Hlen Hh].
  assert (0 < TRAIL_LENGTH) as HN by reflexivity.
  apply Forall_lookup. intros j p Hj.
  pose proof (lookup_lt_Some _ _ _ Hj) as Hjlen.
  assert (0 <= Z.of_nat j < TRAIL_LENGTH) as Hjr by (clear - Hjlen Hlen; lia).
  pose proof (Z.mod_pos_bound (trail_head g - 1 - Z.of_nat j) TRAIL_LENGTH HN) as Hi.
  specialize (Hslots _ Hi).
  rewrite slot_by_age_lookup in Hslots by assumption.
  rewrite current_index_inv, Nat2Z.id, Hj in Hslots by assumption.
  injection Hslots as ->.
  destruct (lookup_lt_is_Some_2 (reverse rs)
              (Z.to_nat ((trail_head g - 1 - Z.of_nat j) mod TRAIL_LENGTH)))
    as [r Hr].
  { rewrite length_reverse. clear - Hi Hfull. lia. }
  rewrite Hr. reflexivity.
Qed.

Lemma stored_full_length (rs : list pointer_reply) (g : globals) :
  stored rs g -> TRAIL_LENGTH <= Z.of_nat (length rs) ->
  length (iterate_by_age g) = Z.to_nat TRAIL_LENGTH.
Proof.
  intros Hst Hfull. rewrite (iterate_by_age_stored rs g Hst).
  rewrite length_zip_with_l; rewrite length_seqZ; [reflexivity|].
  rewrite length_fmap, length_reverse. lia.
Qed.

(** C2 (capacity invariant).  Before any point is stored the array has
    its N slots, all zero and marked invalid, and the pass meets no
    sample.  Storing any sequence of replies, whatever their
    coordinates and button mask, succeeds and keeps the array at N
    slots; once N or more have been stored every slot is marked valid
    and the pass meets exactly N samples.  A single store succeeds in
    every well-formed buffer. *)
Theorem capacity_invariant (rs : list pointer_reply) :
  (length (trail_points initial_globals) = Z.to_nat TRAIL_LENGTH /\
   Forall (fun p => p = zero_point /\ valid p = 0) (trail_points initial_globals) /\
   iterate_by_age initial_globals = []) /\
  (exists g,
     store_points rs initial_globals = Some g /\
     length (trail_points g) = Z.to_nat TRAIL_LENGTH /\
     (TRAIL_LENGTH <= Z.of_nat (length rs) ->
      Forall (fun p => valid p = 1) (trail_points g) /\
      length (iterate_by_age g) = Z.to_nat TRAIL_LENGTH)) /\
  (forall g r, wf g -> exists g', store_point r g = Some g' /\ wf g').
Proof.
  split; [|split].
  - split; [reflexivity|]. split; [|reflexivity].
    apply Forall_forall. intros p Hp.
    apply elem_of_replicate in Hp as [-> _]. split; reflexivity.
  - destruct (store_points_stored rs) as (g & Hg & Hst).
    exists g. split; [exact Hg|]. split; [apply Hst|].
    intros Hfull. split.
    + exact (stored_all_valid rs g Hst Hfull).
    + exact (stored_full_length rs g Hst Hfull).
  - intros g r Hwf. eexists. split; [apply store_point_wf; exact Hwf|].
    exact (store_point_preserves_wf r g _ Hwf (store_point_wf r g Hwf)).
Qed.

(** C9 (array bounds).  Whatever the pointer queries return and
    whenever the interrupt arrives, the loop started on the initial
    buffer never reads or writes outside [trail_points]: it runs to
    the end of the script, the head stays in [0, N), and for every
    loop counter [i] in [0, N) the index the render loop computes lies
    in [0, N) and names a slot of the array.  The head starts at 0 and
    a store moves it to [(head + 1) mod N]. *)
Theorem accesses_in_bounds (width height : Z) (script : list turn) :
  trail_head initial_globals = 0 /\
  (forall g r, wf g ->
     exists g', store_point r g = Some g' /\
                trail_head g' = (trail_head g + 1) mod TRAIL_LENGTH /\
                0 <= trail_head g' < TRAIL_LENGTH) /\
  exists g t,
    main_loop width height script initial_globals = Some (g, t) /\
    length (trail_points g) = Z.to_nat TRAIL_LENGTH /\
    0 <= trail_head g < TRAIL_LENGTH /\
    forall i, 0 <= i < TRAIL_LENGTH ->
      0 <= current_index (trail_head g) i < TRAIL_LENGTH /\
      is_Some (trail_points g !! Z.to_nat (current_index (trail_head g) i)).
Proof.
  split; [reflexivity|]. split.
  - intros g r Hwf. eexists. split; [apply store_point_wf; exact Hwf|].
    split; [reflexivity|]. cbn [trail_head].
    apply Z.mod_pos_bound. reflexivity.
  - destruct (main_loop_wf width height script initial_globals wf_initial)
      as (g & t & Hrun & Hwf).
    exists g, t. split; [exact Hrun|]. pose proof Hwf as [Hlen Hh].
    split; [exact Hlen|]. split; [exact Hh|].
    intros i Hi. pose proof (current_index_range _ _ Hh Hi) as Hr.
    split; [exact Hr|]. apply lookup_lt_is_Some_2. clear - Hr Hlen. lia.
Qed.

(** ** Overwriting the oldest sample *)

Lemma zip_ages_full {A : Type} (l extra : list A) :
  length l = Z.to_nat TRAIL_LENGTH ->
  zip (seqZ 0 TRAIL_LENGTH) (l ++ extra) = zip (seqZ 0 TRAIL_LENGTH) l.
Proof.
  intros Hlen.
  rewrite <- (app_nil_r (seqZ 0 TRAIL_LENGTH)) at 1.
  rewrite zip_with_app by (rewrite length_seqZ; symmetry; exact Hlen).
  apply app_nil_r.
Qed.

(** C1 (overwrite ordering).  Storing N+1 replies [s1, s2, ..., sN1]
    into the initial buffer succeeds; read by age the buffer then gives
    [sN1] at age 0 and [s2] at age N-1, the pass meets exactly
    [sN1, ..., s2] at ages 0 to N-1, and [s1] is gone: the slot it was
    written to, slot 0, holds [sN1]. *)
Theorem overwrite_ordering
    (s1 s2 : pointer_reply) (mid : list pointer_reply) (sN1 : pointer_reply) :
  Z.of_nat (length (s1 :: s2 :: mid ++ [sN1])) = TRAIL_LENGTH + 1 ->
  exists g,
    store_points (s1 :: s2 :: mid ++ [sN1]) initial_globals = Some g /\
    slot_by_age g 0 = Some (point_of sN1) /\
    slot_by_age g (TRAIL_LENGTH - 1) = Some (point_of s2) /\
    iterate_by_age g =
      zip (seqZ 0 TRAIL_LENGTH) (point_of <$> sN1 :: reverse mid ++ [s2]) /\
    (exists g1, store_point s1 initial_globals = Some g1 /\
                trail_points g1 !! 0%nat = Some (point_of s1)) /\
    trail_points g !! 0%nat = Some (point_of sN1).
Proof.
  intros Hlen.
  assert (length mid = 48%nat) as Hmid.
  { cbn [length] in Hlen. rewrite length_app in Hlen. cbn [length] in Hlen.
    unfold TRAIL_LENGTH in Hlen. lia. }
  destruct (store_points_stored (s1 :: s2 :: mid ++ [sN1])) as (g & Hg & Hst).
  assert (reverse (s1 :: s2 :: mid ++ [sN1]) = (sN1 :: reverse mid ++ [s2]) ++ [s1])
    as Hrev.
  { rewrite !reverse_cons, reverse_app, reverse_singleton.
    cbn [app]. rewrite <- !app_assoc. reflexivity. }
  pose proof Hst as (Hwf & Hhead & _ & Hslots).
  assert (trail_head g = 1) as Hh1.
  { rewrite Hhead, Hlen. reflexivity. }
  assert (slot_by_age g 0 = Some (point_of sN1)) as Hnewest.
  { rewrite Hslots by (split; reflexivity || discriminate).
    rewrite Hrev. reflexivity. }
  exists g. split; [exact Hg|]. split; [exact Hnewest|]. split; [|split; [|split]].
  - rewrite Hslots by (split; reflexivity || discriminate).
    rewrite Hrev. change (Z.to_nat (TRAIL_LENGTH - 1)) with 49%nat.
    rewrite lookup_app_l
      by (cbn [length]; rewrite length_app, length_reverse, Hmid; cbn; lia).
    rewrite lookup_cons_ne_0 by discriminate. cbn [Nat.pred].
    rewrite lookup_app_r by (rewrite length_reverse, Hmid; lia).
    rewrite length_reverse, Hmid. reflexivity.
  - rewrite (iterate_by_age_stored _ g Hst), Hrev, fmap_app.
    apply zip_ages_full.
    rewrite length_fmap. cbn [length].
    rewrite length_app, length_reverse, Hmid. reflexivity.
  - eexists. split; [apply store_point_wf, wf_initial|]. reflexivity.
  - rewrite slot_by_age_lookup in Hnewest
      by (exact Hwf || (split; reflexivity || discriminate)).
    rewrite Hh1 in Hnewest. exact Hnewest.
Qed.

Lemma overwrite_ordering_witness :
  exists g,
    store_points (mkReply 0 0 0 :: mkReply 1 1 0
                    :: ((fun k => mkReply k (- k) 256) <$> seqZ 2 48)
                    ++ [mkReply 50 (-50) 0]) initial_globals = Some g /\
    slot_by_age g 0 = Some (mkTrailPoint 50 (-50) 1 0) /\
    slot_by_age g 49 = Some (mkTrailPoint 1 1 1 0).
Proof.
  destruct (overwrite_ordering (mkReply 0 0 0) (mkReply 1 1 0)
              ((fun k => mkReply k (- k) 256) <$> seqZ 2 48)
              (mkReply 50 (-50) 0))
    as (g & Hg & H0 & H49 & _).
  - reflexivity.
  - exists g. split; [exact Hg|]. split; [exact H0 | exact H49].
Defined.

(** C8 (end-to-end scenario).  Storing (10,10), (20,20), (30,30) into
    the initial buffer, a button held during the second query only,
    leaves a buffer whose pass meets exactly (30,30,not clicked) at age
    0, (20,20,clicked) at age 1 and (10,10,not clicked) at age 2, every
    other slot being invalid.  Their fades are the doubles 1.0, 0.98
    and 0.96, none below the cutoff, and the pass paints the three
    discs in that order, the one of age 1 alone in the click color. *)
Theorem end_to_end_scenario (width height m1 m2 m3 : Z) :
  Z.land m1 any_button = 0 ->
  Z.land m2 any_button <> 0 ->
  Z.land m3 any_button = 0 ->
  store_points [mkReply 10 10 m1; mkReply 20 20 m2; mkReply 30 30 m3]
    initial_globals = Some scenario_globals /\
  iterate_by_age scenario_globals =
    [ (0, mkTrailPoint 30 30 1 0);
      (1, mkTrailPoint 20 20 1 1);
      (2, mkTrailPoint 10 10 1 0) ] /\
  (forall i, 3 <= i < TRAIL_LENGTH ->
             valid <$> slot_by_age scenario_globals i = Some 0) /\
  fade_alpha 0 = 1%float /\
  fade_alpha 1 = 0.98%float /\
  fade_alpha 2 = 0.96%float /\
  (fade_alpha 0 <? fade_cutoff)%float = false /\
  (fade_alpha 1 <? fade_cutoff)%float = false /\
  (fade_alpha 2 <? fade_cutoff)%float = false /\
  draw_trail width height scenario_globals =
    Some (clear_calls ++
          [ cairo_set_source_rgba TRAIL_R TRAIL_G TRAIL_B (1 * 0.8)%float;
            cairo_arc 30%float 30%float TRAIL_RADIUS 0%float (2 * M_PI)%float;
            cairo_fill;
            cairo_set_source_rgba CLICK_R CLICK_G CLICK_B (0.98 * 0.9)%float;
            cairo_arc 20%float 20%float TRAIL_RADIUS 0%float (2 * M_PI)%float;
            cairo_fill;
            cairo_set_source_rgba TRAIL_R TRAIL_G TRAIL_B (0.96 * 0.8)%float;
            cairo_arc 10%float 10%float TRAIL_RADIUS 0%float (2 * M_PI)%float;
            cairo_fill ]).
Proof.
  intros H1 H2 H3. apply Z.eqb_neq in H2.
  assert (store_points [mkReply 10 10 m1; mkReply 20 20 m2; mkReply 30 30 m3]
            initial_globals = Some scenario_globals) as Hg.
  { unfold store_points, store_point.
    cbn [root_x_return root_y_return mask_return].
    rewrite H1, H2, H3. vm_compute. reflexivity. }
  destruct (store_points_stored
              [mkReply 10 10 m1; mkReply 20 20 m2; mkReply 30 30 m3])
    as (g & Hg' & Hst).
  rewrite Hg in Hg'. injection Hg' as <-.
  destruct Hst as (_ & _ & _ & Hslots).
  split; [exact Hg|].
  split; [vm_compute; reflexivity|].
  split.
  { intros i Hi. rewrite Hslots by lia.
    rewrite lookup_ge_None_2; [reflexivity|].
    rewrite length_reverse. cbn [length]. lia. }
  do 6 (split; [vm_compute; reflexivity|]).
  vm_compute. reflexivity.
Qed.

Lemma end_to_end_scenario_witness :
  store_points [mkReply 10 10 0; mkReply 20 20 Button1Mask; mkReply 30 30 16]
    initial_globals = Some scenario_globals /\
  iterate_by_age scenario_globals =
    [ (0, mkTrailPoint 30 30 1 0);
      (1, mkTrailPoint 20 20 1 1);
      (2, mkTrailPoint 10 10 1 0) ].
Proof.
  destruct (end_to_end_scenario 1920 1080 0 Button1Mask 16)
    as (Hg & Hiter & _).
  - reflexivity.
  - vm_compute. lia.
  - reflexivity.
  - split; [exact Hg | exact Hiter].
Defined.

(** ** Rendering on a context *)

Lemma cairo_run_app (cs1 cs2 : list cairo_call) (cr : cairo_t) :
  cairo_run (cs1 ++ cs2) cr = cairo_run cs2 (cairo_run cs1 cr).
Proof. apply foldl_app. Qed.

(** After the clear nothing of the context survives but its path. *)
Lemma cairo_run_clear (cr : cairo_t) :
  cairo_run clear_calls cr =
    mkCairo transparent CAIRO_OPERATOR_OVER (cr_path cr) (uniform transparent).
Proof. reflexivity. Qed.

Lemma paint_sample_path (s : Z * TrailPoint) (cr : cairo_t) :
  cr_path cr = [] -> cr_path (cairo_run (paint_sample s) cr) = [].
Proof.
  intros Hpath. unfold paint_sample, paint_point.
  destruct (fade_alpha s.1 <? fade_cutoff)%float; [exact Hpath|].
  destruct (clicked s.2 =? 0); reflexivity.
Qed.

Lemma paint_samples_path (l : list (Z * TrailPoint)) (cr : cairo_t) :
  cr_path cr = [] -> cr_path (cairo_run (concat (paint_sample <$> l)) cr) = [].
Proof.
  revert cr. induction l as [|s l IH]; intros cr Hpath; [exact Hpath|].
  cbn [fmap list_fmap concat]. rewrite cairo_run_app.
  apply IH, paint_sample_path, Hpath.
Qed.

Lemma render_from_clear (width height : Z) (g : globals) (cr : cairo_t) :
  wf g ->
  render width height g cr =
    Some (cairo_run (concat (paint_sample <$> iterate_by_age g))
            (mkCairo transparent CAIRO_OPERATOR_OVER (cr_path cr)
                     (uniform transparent))).
Proof.
  intros Hwf. unfold render.
  rewrite (draw_trail_iterate width height g Hwf). cbn [mbind option_bind].
  rewrite cairo_run_app, cairo_run_clear. reflexivity.
Qed.

(** C6 (idempotent clear).  A render pass starts with the clear, after
    which the whole surface is transparent whatever it held.  Hence on
    a context with no pending path the result of a render is the same
    whatever was on the surface before, and rendering again with the
    buffer unchanged gives the same context and, under any rasteriser,
    the same pixels. *)
Theorem render_idempotent (width height : Z) (g : globals) (cr : cairo_t) :
  wf g -> cr_path cr = [] ->
  exists cr1,
    render width height g cr = Some cr1 /\
    render width height g cr1 = Some cr1 /\
    (exists body, draw_trail width height g = Some (clear_calls ++ body)) /\
    cr_target (cairo_run clear_calls cr) = uniform transparent /\
    (forall cr', cr_path cr' = [] -> render width height g cr' = Some cr1) /\
    forall cr2, render width height g cr1 = Some cr2 ->
      forall (coord pixel : Type) (flat : rgba -> coord -> pixel)
             (blend : cairo_operator_t -> rgba -> option (list arc_t) ->
                      coord -> pixel -> pixel) (xy : coord),
        pixel_at coord pixel flat blend (cr_target cr2) xy =
        pixel_at coord pixel flat blend (cr_target cr1) xy.
Proof.
  intros Hwf Hpath.
  remember (cairo_run (concat (paint_sample <$> iterate_by_age g))
              (mkCairo transparent CAIRO_OPERATOR_OVER [] (uniform transparent)))
    as cr1 eqn:Hcr1.
  assert (forall cr', cr_path cr' = [] -> render width height g cr' = Some cr1)
    as Hany.
  { intros cr' Hpath'.
    rewrite (render_from_clear width height g cr' Hwf), Hpath', Hcr1.
    reflexivity. }
  assert (cr_path cr1 = []) as Hpath1
    by (rewrite Hcr1; apply paint_samples_path; reflexivity).
  exists cr1. split; [apply Hany, Hpath|].
  split; [apply Hany, Hpath1|].
  split; [eexists; apply draw_trail_iterate, Hwf|].
  split; [reflexivity|].
  split; [exact Hany|].
  intros cr2 Hcr2 coord pixel flat blend xy.
  rewrite (Hany _ Hpath1) in Hcr2.
  apply (f_equal (from_option id cr1)) in Hcr2. cbn [from_option id] in Hcr2.
  rewrite <- Hcr2. reflexivity.
Qed.

Lemma render_idempotent_witness :
  exists cr1,
    render 1920 1080 scenario_globals
      (cairo_create (uniform (1, 1, 1, 1)%float)) = Some cr1 /\
    render 1920 1080 scenario_globals cr1 = Some cr1.
Proof.
  destruct (render_idempotent 1920 1080 scenario_globals
              (cairo_create (uniform (1, 1, 1, 1)%float)))
    as (cr1 & H1 & H2 & _).
  - split; [reflexivity | unfold TRAIL_LENGTH; simpl; lia].
  - reflexivity.
  - exists cr1. split; [exact H1 | exact H2].
Defined.

(** ** A failed pointer query *)

Lemma main_loop_query_failed (width height : Z) (rest : list turn) (g : globals) :
  keep_running g <> 0 ->
  main_loop width height (mkTurn false None :: rest) g =
    (fun '(g', t) => (g', query_failed_events ++ t))
      <$> main_loop width height rest g.
Proof.
  intros Hrun. apply Z.eqb_neq in Hrun.
  cbn [main_loop interrupted query]. rewrite Hrun.
  cbn [loop_body mbind option_bind].
  destruct (main_loop width height rest g) as [[g' t]|]; reflexivity.
Qed.

(** C7 (pointer query failure).  A turn of the loop whose query fails
    leaves the globals, hence the array and the head, as they were, and
    does nothing but report the failure on both streams and sleep
    100000 microseconds on top of the usual interval.  The loop goes
    on: after any number [n] of failed queries in a row it has queried
    [n] times and carries on with the rest of the script from the same
    buffer. *)
Theorem query_failure_skips_store
    (width height : Z) (n : nat) (rest : list turn) (g : globals) :
  keep_running g <> 0 ->
  loop_body width height None g =
    Some (g, [ ev_XQueryPointer; ev_print_query_failed; ev_warn_query_failed;
               ev_usleep 100000; ev_usleep UPDATE_INTERVAL ]) /\
  main_loop width height (replicate n (mkTurn false None) ++ rest) g =
    (fun '(g', t) => (g', concat (replicate n query_failed_events) ++ t))
      <$> main_loop width height rest g /\
  main_loop width height (replicate n (mkTurn false None)) g =
    Some (g, concat (replicate n query_failed_events)) /\
  queries (concat (replicate n query_failed_events)) = n /\
  slept query_failed_events = 100000 + UPDATE_INTERVAL.
Proof.
  intros Hrun.
  assert (forall rest',
            main_loop width height (replicate n (mkTurn false None) ++ rest') g =
              (fun '(g', t) => (g', concat (replicate n query_failed_events) ++ t))
                <$> main_loop width height rest' g) as Hloop.
  { intros rest'. induction n as [|n IH].
    - cbn [replicate concat app].
      destruct (main_loop width height rest' g) as [[g' t]|]; reflexivity.
    - cbn [replicate concat]. rewrite <- app_comm_cons.
      rewrite (main_loop_query_failed _ _ _ _ Hrun), IH.
      destruct (main_loop width height rest' g) as [[g' t]|]; [|reflexivity].
      cbn [fmap option_fmap option_map]. rewrite <- app_assoc. reflexivity. }
  split; [reflexivity|]. split; [apply Hloop|]. split; [|split].
  - rewrite <- (app_nil_r (replicate n _)), Hloop.
    cbn [main_loop fmap option_fmap option_map]. rewrite app_nil_r. reflexivity.
  - clear Hloop. induction n as [|n IH]; [reflexivity|].
    cbn [replicate concat]. unfold queries in *.
    rewrite List.filter_app, length_app, IH. reflexivity.
  - reflexivity.
Qed.

Lemma query_failure_skips_store_witness :
  main_loop 1920 1080 (replicate 3 (mkTurn false None)) scenario_globals =
    Some (scenario_globals, concat (replicate 3 query_failed_events)).
Proof.
  refine (proj1 (proj2 (proj2
    (query_failure_skips_store 1920 1080 3 [] scenario_globals _)))).
  vm_compute. lia.
Defined.

(** C10 (surface dimensions unused).  The calls [draw_trail] issues do
    not depend on its width and height arguments; and every valid
    sample that is not culled gets its disc, centred at the sample's
    coordinates whatever they are, on or off the surface. *)
Theorem draw_trail_ignores_dimensions
    (width1 height1 width2 height2 : Z) (g : globals) (i : Z) (p : TrailPoint) :
  wf g -> 0 <= i < TRAIL_LENGTH ->
  slot_by_age g i = Some p -> valid p <> 0 ->
  (fade_alpha i <? fade_cutoff)%float = false ->
  draw_trail width1 height1 g = draw_trail width2 height2 g /\
  exists cs,
    draw_trail width1 height1 g = Some cs /\
    In (cairo_arc (double_of_int (x p)) (double_of_int (y p))
                  TRAIL_RADIUS 0%float (2 * M_PI)%float) cs.
Proof.
  intros Hwf Hi Hp Hv Hshown. split; [reflexivity|].
  eexists. split; [apply draw_trail_iterate, Hwf|].
  apply in_or_app. right. apply in_concat.
  exists (paint_sample (i, p)). split.
  - apply list_elem_of_In, list_elem_of_fmap. exists (i, p). split; [reflexivity|].
    unfold iterate_by_age. apply list_elem_of_omap. exists i. split.
    + apply elem_of_seqZ. lia.
    + rewrite Hp. cbn [mbind option_bind].
      apply Z.eqb_neq in Hv. rewrite Hv. reflexivity.
  - unfold paint_sample. cbn [fst snd]. rewrite Hshown.
    unfold paint_point. right. left. reflexivity.
Qed.

Lemma draw_trail_ignores_dimensions_witness :
  draw_trail 1920 1080 scenario_globals = draw_trail 1 1 scenario_globals /\
  exists cs,
    draw_trail 1920 1080 scenario_globals = Some cs /\
    In (cairo_arc 30%float 30%float 3%float 0%float (2 * M_PI)%float) cs.
Proof.
  refine (draw_trail_ignores_dimensions 1920 1080 1 1 scenario_globals 0
            (mkTrailPoint 30 30 1 0) _ _ _ _ _).
  - split; [reflexivity | unfold TRAIL_LENGTH; simpl; lia].
  - unfold TRAIL_LENGTH. lia.
  - reflexivity.
  - vm_compute. lia.
  - reflexivity.
Defined.

(** * Further properties of the code *)

(** ** The ring buffer *)

(** X1.  After any number of stores into the initial buffer, the head
    is that number modulo N and the pass meets the replies stored,
    newest first, each exactly once and no more than the N newest; the
    ages beyond the number stored read slots never written. *)
Theorem ring_holds_last_samples (rs : list pointer_reply) :
  exists g,
    store_points rs initial_globals = Some g /\
    trail_head g = Z.of_nat (length rs) mod TRAIL_LENGTH /\
    iterate_by_age g = zip (seqZ 0 TRAIL_LENGTH) (point_of <$> reverse rs) /\
    length (iterate_by_age g) = Nat.min (length rs) (Z.to_nat TRAIL_LENGTH) /\
    forall i, Z.of_nat (length rs) <= i < TRAIL_LENGTH ->
              slot_by_age g i = Some zero_point.
Proof.
  destruct (store_points_stored rs) as (g & Hg & Hst).
  exists g. split; [exact Hg|].
  pose proof Hst as (_ & Hhead & _ & Hslots).
  split; [exact Hhead|].
  split; [exact (iterate_by_age_stored rs g Hst)|].
  split.
  - rewrite (iterate_by_age_stored rs g Hst), length_zip_with, length_seqZ.
    rewrite length_fmap, length_reverse. apply Nat.min_comm.
  - intros i Hi. rewrite Hslots by lia.
    rewrite lookup_ge_None_2; [reflexivity|].
    rewrite length_reverse. lia.
Qed.

Lemma current_index_oldest (h : Z) :
  0 <= h < TRAIL_LENGTH -> current_index h (TRAIL_LENGTH - 1) = h.
Proof.
  intros Hh. assert (0 < TRAIL_LENGTH) as HN by reflexivity.
  rewrite current_index_mod by lia.
  replace (h - 1 - (TRAIL_LENGTH - 1)) with (h + (-1) * TRAIL_LENGTH) by lia.
  rewrite Z.mod_add by lia. apply Z.mod_small. exact Hh.
Qed.

(** X2.  In a well-formed buffer a store succeeds and ages every
    sample by one: the new point is read at age 0, what was read at
    age [i] is read at age [i + 1], and the only slot written is the
    one that was read at age N-1.  The run flag is left alone. *)
Theorem store_point_ages_samples (r : pointer_reply) (g : globals) :
  wf g ->
  exists g',
    store_point r g = Some g' /\
    wf g' /\
    keep_running g' = keep_running g /\
    slot_by_age g' 0 = Some (point_of r) /\
    (forall i, 0 <= i < TRAIL_LENGTH - 1 ->
               slot_by_age g' (i + 1) = slot_by_age g i) /\
    current_index (trail_head g) (TRAIL_LENGTH - 1) = trail_head g /\
    (forall j, j <> Z.to_nat (trail_head g) ->
               trail_points g' !! j = trail_points g !! j).
Proof.
  intros Hwf. pose proof Hwf as [Hlen Hh].
  pose proof (store_point_wf r g Hwf) as Hst.
  pose proof (store_point_preserves_wf r g _ Hwf Hst) as Hwf'.
  eexists. split; [exact Hst|]. split; [exact Hwf'|]. split; [reflexivity|].
  split; [|split; [|split]].
  - rewrite slot_by_age_lookup by (exact Hwf' || (split; reflexivity || discriminate)).
    cbn [trail_points trail_head].
    rewrite current_index_newest by assumption.
    apply list_lookup_insert_eq. rewrite Hlen. clear - Hh. lia.
  - intros i Hi.
    assert (0 <= i < TRAIL_LENGTH) as Hi' by (clear - Hi; lia).
    assert (0 <= i + 1 < TRAIL_LENGTH) as Hi1 by (clear - Hi; lia).
    rewrite (slot_by_age_lookup _ _ Hwf' Hi1), (slot_by_age_lookup _ _ Hwf Hi').
    cbn [trail_points trail_head].
    rewrite current_index_next by (clear - Hh Hi; lia).
    replace (i + 1 - 1) with i by lia.
    pose proof (current_index_older _ _ Hh Hi) as Hother.
    pose proof (current_index_range _ _ Hh Hi') as Hr.
    apply list_lookup_insert_ne. clear - Hother Hr Hh. lia.
  - apply current_index_oldest. exact Hh.
  - intros j Hj. cbn [trail_points]. apply list_lookup_insert_ne.
    intros Heq. apply Hj. symmetry. exact Heq.
Qed.

Lemma store_point_ages_samples_witness :
  exists g',
    store_point (mkReply 40 (-3) 0) scenario_globals = Some g' /\
    slot_by_age g' 0 = Some (mkTrailPoint 40 (-3) 1 0) /\
    slot_by_age g' 1 = Some (mkTrailPoint 30 30 1 0).
Proof.
  destruct (store_point_ages_samples (mkReply 40 (-3) 0) scenario_globals)
    as (g' & Hg' & _ & _ & H0 & Hage & _).
  - split; [reflexivity | unfold TRAIL_LENGTH; simpl; lia].
  - exists g'. split; [exact Hg'|]. split; [exact H0|].
    exact (Hage 0 ltac:(unfold TRAIL_LENGTH; lia)).
Defined.

Lemma current_index_age (h i : Z) :
  0 <= h < TRAIL_LENGTH -> 0 <= i < TRAIL_LENGTH ->
  (h - 1 - current_index h i) mod TRAIL_LENGTH = i.
Proof.
  intros Hh Hi. rewrite current_index_mod by assumption.
  rewrite Zminus_mod_idemp_r.
  replace (h - 1 - (h - 1 - i)) with i by lia.
  apply Z.mod_small. exact Hi.
Qed.

(** X3.  With the head inside the array, the index expression of the
    render loop is the mathematical [(head - 1 - i) mod N]: the C
    arithmetic neither wraps nor yields a negative remainder.  Over one
    pass it reads every slot of the array, and none twice. *)
Theorem current_index_bijective (h : Z) :
  0 <= h < TRAIL_LENGTH ->
  (forall i, 0 <= i < TRAIL_LENGTH ->
             current_index h i = (h - 1 - i) mod TRAIL_LENGTH) /\
  (forall i j, 0 <= i < TRAIL_LENGTH -> 0 <= j < TRAIL_LENGTH ->
               current_index h i = current_index h j -> i = j) /\
  (forall k, 0 <= k < TRAIL_LENGTH ->
             exists i, 0 <= i < TRAIL_LENGTH /\ current_index h i = k).
Proof.
  intros Hh. split; [|split].
  - intros i Hi. apply current_index_mod; assumption.
  - intros i j Hi Hj Heq.
    rewrite <- (current_index_age h i Hh Hi), <- (current_index_age h j Hh Hj).
    rewrite Heq. reflexivity.
  - intros k Hk. exists ((h - 1 - k) mod TRAIL_LENGTH). split.
    + apply Z.mod_pos_bound. reflexivity.
    + apply current_index_inv; assumption.
Qed.

Lemma current_index_bijective_witness :
  current_index 3 7 = (3 - 1 - 7) mod TRAIL_LENGTH.
Proof.
  refine (proj1 (current_index_bijective 3 _) 7 _).
  - unfold TRAIL_LENGTH. lia.
  - unfold TRAIL_LENGTH. lia.
Defined.

(** ** The render pass *)

Lemma fills_app (cs1 cs2 : list cairo_call) :
  fills (cs1 ++ cs2) = (fills cs1 + fills cs2)%nat.
Proof. unfold fills. rewrite List.filter_app. apply length_app. Qed.

Lemma fills_paint_sample (i : Z) (p : TrailPoint) :
  0 <= i < TRAIL_LENGTH ->
  fills (paint_sample (i, p)) = if i <? 48 then 1%nat else 0%nat.
Proof.
  intros Hi. unfold paint_sample. cbn [fst snd].
  rewrite (cull_decision i Hi).
  destruct (Z.leb_spec 48 i) as [Hge | Hlt]; destruct (Z.ltb_spec i 48); try lia.
  - reflexivity.
  - unfold paint_point. destruct (clicked p =? 0); reflexivity.
Qed.

Lemma fills_zip_ages (k : nat) :
  forall (m : Z) (pts : list TrailPoint),
    0 <= m -> m + Z.of_nat k <= TRAIL_LENGTH ->
    Z.of_nat (fills (concat (paint_sample <$> zip (seqZ m (Z.of_nat k)) pts))) =
      Z.max 0 (Z.min (m + Z.of_nat (Nat.min k (length pts))) 48 - m).
Proof.
  induction k as [|k IH]; intros m pts Hm Hk.
  - rewrite Nat.min_0_l. change (seqZ m (Z.of_nat 0)) with (@nil Z).
    change (Z.of_nat (fills _)) with 0. lia.
  - rewrite seqZ_cons by lia.
    replace (Z.pred (Z.of_nat (S k))) with (Z.of_nat k) by lia.
    destruct pts as [|p pts].
    + rewrite Nat.min_0_r. change (Z.of_nat (fills _)) with 0. lia.
    + cbn [zip_with fmap list_fmap concat]. rewrite fills_app, Nat2Z.inj_add.
      rewrite fills_paint_sample by lia.
      rewrite IH by lia. cbn [length].
      destruct (Z.ltb_spec m 48); lia.
Qed.

(** X4.  A pass over the buffer left by [n] stores fills exactly
    [min n 48] discs: one for each sample held, except that the two
    oldest of a full buffer are never drawn. *)
Theorem painted_disc_count (width height : Z) (rs : list pointer_reply) :
  exists g cs,
    store_points rs initial_globals = Some g /\
    draw_trail width height g = Some cs /\
    fills cs = Nat.min (length rs) 48.
Proof.
  destruct (store_points_stored rs) as (g & Hg & Hst).
  exists g. eexists. split; [exact Hg|].
  split; [apply draw_trail_iterate, Hst|].
  rewrite fills_app, (iterate_by_age_stored rs g Hst).
  change (fills clear_calls) with 0%nat. cbn [Nat.add].
  apply Nat2Z.inj. change TRAIL_LENGTH with (Z.of_nat 50).
  rewrite fills_zip_ages by (unfold TRAIL_LENGTH; lia).
  rewrite length_fmap, length_reverse. lia.
Qed.

Lemma store_point_newest (r : pointer_reply) (g : globals) :
  wf g ->
  exists g', store_point r g = Some g' /\ wf g' /\
             slot_by_age g' 0 = Some (point_of r).
Proof.
  intros Hwf. pose proof Hwf as [Hlen Hh].
  pose proof (store_point_wf r g Hwf) as Hst.
  pose proof (store_point_preserves_wf r g _ Hwf Hst) as Hwf'.
  eexists. split; [exact Hst|]. split; [exact Hwf'|].
  rewrite slot_by_age_lookup by (exact Hwf' || (split; reflexivity || discriminate)).
  cbn [trail_points trail_head].
  rewrite current_index_newest by assumption.
  apply list_lookup_insert_eq. rewrite Hlen. clear - Hh. lia.
Qed.

(** X5.  Whatever the buffer held, the pass that follows a store
    paints the point just stored first and at full fade: right after
    the clear come its color with opacity [1.0 * 0.8] or [1.0 * 0.9],
    its disc at the pointer's coordinates, and the fill. *)
Theorem newest_sample_painted_first
    (width height : Z) (r : pointer_reply) (g : globals) :
  wf g ->
  exists g' rest,
    store_point r g = Some g' /\
    draw_trail width height g' =
      Some (clear_calls ++ paint_point (point_of r) 1%float ++ rest).
Proof.
  intros Hwf.
  destruct (store_point_newest r g Hwf) as (g' & Hg' & Hwf' & Hnew).
  exists g'. eexists. split; [exact Hg'|].
  rewrite (draw_trail_iterate width height g' Hwf'). unfold iterate_by_age.
  rewrite seqZ_cons by reflexivity. cbn [omap list_omap].
  rewrite Hnew. cbn [mbind option_bind point_of valid Z.eqb].
  cbn [fmap list_fmap concat].
  change (paint_sample (0, point_of r)) with (paint_point (point_of r) 1%float).
  reflexivity.
Qed.

Lemma newest_sample_painted_first_witness :
  exists g' rest,
    store_point (mkReply (-5) 4000 Button3Mask) full_globals = Some g' /\
    draw_trail 1920 1080 g' =
      Some (clear_calls
            ++ [ cairo_set_source_rgba 1%float 0%float 0%float (1 * 0.9)%float;
                 cairo_arc (-5)%float 4000%float 3%float 0%float (2 * M_PI)%float;
                 cairo_fill ]
            ++ rest).
Proof.
  refine (newest_sample_painted_first 1920 1080
            (mkReply (-5) 4000 Button3Mask) full_globals _).
  split; [reflexivity | unfold TRAIL_LENGTH; simpl; lia].
Defined.

Lemma paint_sample_in_range (i : Z) (p : TrailPoint) :
  0 <= i < TRAIL_LENGTH ->
  Forall (fun c => source_in_range c = true) (paint_sample (i, p)).
Proof.
  intros Hi.
  apply (ages_forall
           (fun i => (fade_alpha i <? fade_cutoff)%float
                     || (unit_range (fade_alpha i * 0.8)%float
                         && unit_range (fade_alpha i * 0.9)%float)))
    in Hi; [|vm_compute; reflexivity].
  unfold paint_sample. cbn [fst snd].
  destruct (fade_alpha i <? fade_cutoff)%float; [constructor|].
  cbn [orb] in Hi. apply andb_prop in Hi as [H8 H9].
  unfold paint_point. repeat constructor.
  destruct (clicked p =? 0); cbn [source_in_range].
  - rewrite H8. reflexivity.
  - rewrite H9. reflexivity.
Qed.

(** X6.  Every color a pass sets has its red, green, blue and opacity
    between 0 and 1, so that cairo never has to clamp them. *)
Theorem opacity_in_unit_range (width height : Z) (g : globals) :
  wf g ->
  exists cs,
    draw_trail width height g = Some cs /\
    Forall (fun c => source_in_range c = true) cs.
Proof.
  intros Hwf. eexists. split; [apply draw_trail_iterate, Hwf|].
  apply Forall_app. split; [repeat constructor|].
  apply Forall_forall. intros c Hc.
  apply list_elem_of_In, in_concat in Hc as (l & Hl & Hc).
  apply list_elem_of_In, list_elem_of_fmap in Hl as ([i p] & -> & Hs).
  unfold iterate_by_age in Hs.
  apply list_elem_of_omap in Hs as (i' & Hi' & Hs).
  apply elem_of_seqZ in Hi'.
  destruct (slot_by_age g i') as [p'|]; [|discriminate].
  cbn [mbind option_bind] in Hs.
  destruct (valid p' =? 0); [discriminate|]. injection Hs as <- <-.
  assert (0 <= i' < TRAIL_LENGTH) as Hr by lia.
  pose proof (paint_sample_in_range i' p' Hr) as Hall.
  rewrite Forall_forall in Hall. apply Hall, list_elem_of_In, Hc.
Qed.

Lemma opacity_in_unit_range_witness :
  exists cs,
    draw_trail 1920 1080 full_globals = Some cs /\
    Forall (fun c => source_in_range c = true) cs.
Proof.
  refine (opacity_in_unit_range 1920 1080 full_globals _).
  split; [reflexivity | unfold TRAIL_LENGTH; simpl; lia].
Defined.

(** ** The click flag *)

Lemma any_button_testbit (k : Z) :
  Z.testbit any_button k = (8 <=? k) && (k <=? 12).
Proof.
  destruct (Z_lt_le_dec k 0) as [Hneg | Hpos].
  - rewrite Z.testbit_neg_r by exact Hneg.
    destruct (Z.leb_spec 8 k); [lia | reflexivity].
  - destruct (Z_lt_le_dec 12 k) as [Hbig | Hsmall].
    + rewrite Z.bits_above_log2;
        [ | vm_compute; discriminate | change (Z.log2 any_button) with 12; lia ].
      destruct (Z.leb_spec k 12); [lia|]. apply eq_sym, andb_false_r.
    + assert (k = 0 \/ k = 1 \/ k = 2 \/ k = 3 \/ k = 4 \/ k = 5 \/ k = 6 \/
              k = 7 \/ k = 8 \/ k = 9 \/ k = 10 \/ k = 11 \/ k = 12) as Hk by lia.
      repeat (destruct Hk as [-> | Hk]; [reflexivity|]). subst k. reflexivity.
Qed.

Lemma no_button_bits (m : Z) :
  Z.land m any_button = 0 <->
  forall k, 8 <= k <= 12 -> Z.testbit m k = false.
Proof.
  split.
  - intros Hland k Hk.
    assert (Z.testbit (Z.land m any_button) k = false) as Hbit
      by (rewrite Hland; apply Z.bits_0).
    rewrite Z.land_spec, any_button_testbit in Hbit.
    destruct (Z.leb_spec 8 k); [|lia]. destruct (Z.leb_spec k 12); [|lia].
    rewrite andb_true_r in Hbit. exact Hbit.
  - intros Hbits. apply Z.bits_inj'. intros k Hk.
    rewrite Z.land_spec, any_button_testbit, Z.bits_0.
    destruct (Z.leb_spec 8 k); [|apply andb_false_r].
    destruct (Z.leb_spec k 12); [|apply andb_false_r].
    rewrite Hbits by lia. reflexivity.
Qed.

(** X7.  The point a store writes carries the pointer's coordinates,
    is marked valid, and has its click flag normalised to 0 or 1: it
    is 1 exactly when one of the bits 8 to 12 of the mask, the five
    pointer buttons, is set.  The modifier bits below them never mark
    a click. *)
Theorem clicked_iff_button_bit (r : pointer_reply) (g : globals) :
  wf g ->
  exists g' p,
    store_point r g = Some g' /\
    slot_by_age g' 0 = Some p /\
    x p = root_x_return r /\ y p = root_y_return r /\ valid p = 1 /\
    (clicked p = 0 \/ clicked p = 1) /\
    (clicked p = 1 <->
     exists k, 8 <= k <= 12 /\ Z.testbit (mask_return r) k = true) /\
    (Z.land (mask_return r) (Z.ones 8) = mask_return r -> clicked p = 0).
Proof.
  intros Hwf.
  destruct (store_point_newest r g Hwf) as (g' & Hg' & _ & Hnew).
  exists g', (point_of r). split; [exact Hg'|]. split; [exact Hnew|].
  do 3 (split; [reflexivity|]).
  unfold point_of. cbn [clicked].
  pose proof (no_button_bits (mask_return r)) as Hbits.
  destruct (Z.eqb_spec (Z.land (mask_return r) any_button) 0) as [Hz | Hnz].
  - split; [left; reflexivity|]. split.
    + split; [discriminate|]. intros (k & Hk & Hset).
      rewrite (proj1 Hbits Hz k Hk) in Hset. discriminate.
    + reflexivity.
  - split; [right; reflexivity|]. split.
    + split; [|reflexivity]. intros _.
      destruct (Z.testbit (mask_return r) 8) eqn:H8; [exists 8; split; [lia | exact H8]|].
      destruct (Z.testbit (mask_return r) 9) eqn:H9; [exists 9; split; [lia | exact H9]|].
      destruct (Z.testbit (mask_return r) 10) eqn:H10; [exists 10; split; [lia | exact H10]|].
      destruct (Z.testbit (mask_return r) 11) eqn:H11; [exists 11; split; [lia | exact H11]|].
      destruct (Z.testbit (mask_return r) 12) eqn:H12; [exists 12; split; [lia | exact H12]|].
      exfalso. apply Hnz, Hbits. intros k Hk.
      assert (k = 8 \/ k = 9 \/ k = 10 \/ k = 11 \/ k = 12) as Hcase by lia.
      destruct Hcase as [-> | [-> | [-> | [-> | ->]]]]; assumption.
    + intros Hlow. exfalso. apply Hnz, Hbits. intros k Hk.
      rewrite <- Hlow, Z.land_spec, Z.ones_spec_high by lia.
      apply andb_false_r.
Qed.

Lemma clicked_iff_button_bit_witness :
  exists g' p,
    store_point (mkReply 7 9 (Z.lor Button2Mask 1)) scenario_globals = Some g' /\
    slot_by_age g' 0 = Some p /\ clicked p = 1.
Proof.
  destruct (clicked_iff_button_bit (mkReply 7 9 (Z.lor Button2Mask 1))
              scenario_globals)
    as (g' & p & Hg' & Hp & _ & _ & _ & _ & Hset & _).
  - split; [reflexivity | unfold TRAIL_LENGTH; simpl; lia].
  - exists g', p. split; [exact Hg'|]. split; [exact Hp|].
    apply Hset. exists 9. split; [lia | reflexivity].
Defined.

(** ** The loop, turn after turn *)

Lemma queries_app (t1 t2 : list event) :
  queries (t1 ++ t2) = (queries t1 + queries t2)%nat.
Proof. unfold queries. rewrite List.filter_app. apply length_app. Qed.

Lemma slept_app (t1 t2 : list event) : slept (t1 ++ t2) = slept t1 + slept t2.
Proof.
  induction t1 as [|e t1 IH]; [reflexivity|].
  cbn [app]. unfold slept in *. cbn [foldr]. rewrite IH.
  destruct e; lia.
Qed.

Lemma cairo_events_quiet (cs : list cairo_call) :
  queries (ev_cairo <$> cs) = 0%nat /\ slept (ev_cairo <$> cs) = 0.
Proof.
  induction cs as [|c cs [IHq IHs]]; [split; reflexivity|].
  split; [exact IHq | exact IHs].
Qed.

(** One turn of the body on a well-formed buffer. *)
Lemma loop_body_turn (width height : Z) (q : option pointer_reply) (g : globals) :
  wf g ->
  exists g' t,
    loop_body width height q g = Some (g', t) /\
    wf g' /\
    keep_running g' = keep_running g /\
    store_points (option_list q) g = Some g' /\
    queries t = 1%nat /\
    slept t = UPDATE_INTERVAL + match q with Some _ => 0 | None => 100000 end.
Proof.
  intros Hwf. destruct q as [r|]; cbn [loop_body].
  - change (store_points (option_list (Some r)) g)
      with (g' ← store_point r g; Some g').
    pose proof (store_point_wf r g Hwf) as Hst.
    pose proof (store_point_preserves_wf r g _ Hwf Hst) as Hwf'.
    rewrite Hst. cbn [mbind option_bind].
    rewrite (draw_trail_iterate width height _ Hwf'). cbn [mbind option_bind].
    eexists _, _. split; [reflexivity|]. split; [exact Hwf'|].
    split; [reflexivity|]. split; [reflexivity|].
    destruct (cairo_events_quiet
                (clear_calls ++ concat (paint_sample <$> iterate_by_age
                   (mkGlobals (<[Z.to_nat (trail_head g) := point_of r]> (trail_points g))
                              ((trail_head g + 1) mod TRAIL_LENGTH)
                              (keep_running g))))) as [Hq Hs].
    split.
    + rewrite !queries_app, Hq. reflexivity.
    + rewrite !slept_app, Hs. reflexivity.
  - exists g, query_failed_events. repeat split; try reflexivity; apply Hwf.
Qed.

(** The loop over a script that no interrupt cuts short. *)
Lemma main_loop_uninterrupted (width height : Z) (script : list turn) :
  forall g,
    wf g -> keep_running g <> 0 -> uninterrupted script ->
    exists g' t,
      main_loop width height script g = Some (g', t) /\
      wf g' /\
      keep_running g' = keep_running g /\
      store_points (successful_replies script) g = Some g' /\
      queries t = length script /\
      slept t = UPDATE_INTERVAL * Z.of_nat (length script)
                + 100000 * Z.of_nat (failed_queries script) /\
      forall more,
        main_loop width height (script ++ more) g =
          '(g2, t2) ← main_loop width height more g'; Some (g2, t ++ t2).
Proof.
  induction script as [|tn script IH]; intros g Hwf Hrun Hun.
  - exists g, []. split; [reflexivity|]. split; [exact Hwf|].
    split; [reflexivity|]. split; [reflexivity|]. split; [reflexivity|].
    split; [reflexivity|]. intros more. cbn [app].
    destruct (main_loop width height more g) as [[g2 t2]|]; reflexivity.
  - apply Forall_cons in Hun as [Hnow Hlater].
    destruct (loop_body_turn width height (query tn) g Hwf)
      as (g1 & t1 & Hbody & Hwf1 & Hrun1 & Hst1 & Hq1 & Hs1).
    assert (keep_running g1 <> 0) as Hrun1' by (rewrite Hrun1; exact Hrun).
    destruct (IH g1 Hwf1 Hrun1' Hlater)
      as (g' & t & Hloop & Hwf' & Hrun' & Hst & Hq & Hs & Hmore).
    assert (forall rest, main_loop width height (tn :: rest) g =
              '(g2, t2) ← main_loop width height rest g1; Some (g2, t1 ++ t2))
      as Hstep.
    { intros rest. cbn [main_loop]. rewrite Hnow.
      apply Z.eqb_neq in Hrun. rewrite Hrun, Hbody. reflexivity. }
    exists g', (t1 ++ t). split; [rewrite Hstep, Hloop; reflexivity|].
    split; [exact Hwf'|]. split; [rewrite Hrun'; exact Hrun1|].
    split.
    { unfold successful_replies in *. cbn [omap list_omap].
      destruct (query tn) as [r|].
      - change (store_points (option_list (Some r)) g)
          with (g' ← store_point r g; Some g') in Hst1.
        cbn [store_points].
        destruct (store_point r g) as [g1'|]; [|discriminate].
        cbn [mbind option_bind] in *. injection Hst1 as ->. exact Hst.
      - change (Some g = Some g1) in Hst1. injection Hst1 as ->. exact Hst. }
    split; [rewrite queries_app, Hq1, Hq; reflexivity|].
    split.
    { rewrite slept_app, Hs1, Hs. unfold failed_queries. cbn [List.filter length].
      destruct (query tn); cbn [length]; lia. }
    intros more. rewrite <- app_comm_cons, Hstep, Hmore.
    destruct (main_loop width height more g') as [[g2 t2]|]; [|reflexivity].
    cbn [mbind option_bind]. rewrite app_assoc. reflexivity.
Qed.

(** X8.  The interrupt ends the loop at the next test of the run flag:
    after a script that runs uninterrupted, a turn that sees the
    interrupt adds nothing to the trace but the handler's message,
    clears the run flag, makes no query, leaves the buffer as it was,
    and nothing of what follows is run. *)
Theorem interrupt_stops_loop
    (width height : Z) (before after : list turn) (q : option pointer_reply)
    (g : globals) :
  wf g -> keep_running g <> 0 -> uninterrupted before ->
  exists g1 t1,
    main_loop width height before g = Some (g1, t1) /\
    main_loop width height (before ++ mkTurn true q :: after) g =
      Some (mkGlobals (trail_points g1) (trail_head g1) 0,
            t1 ++ [ev_print_caught_signal SIGINT]) /\
    queries (t1 ++ [ev_print_caught_signal SIGINT]) = length before.
Proof.
  intros Hwf Hrun Hun.
  destruct (main_loop_uninterrupted width height before g Hwf Hrun Hun)
    as (g1 & t1 & Hloop & _ & _ & _ & Hq & _ & Hmore).
  exists g1, t1. split; [exact Hloop|]. split.
  - rewrite Hmore. reflexivity.
  - rewrite queries_app, Hq. cbn. lia.
Qed.

Lemma interrupt_stops_loop_witness :
  exists g1 t1,
    main_loop 1920 1080 [mkTurn false None] scenario_globals = Some (g1, t1) /\
    main_loop 1920 1080
      ([mkTurn false None] ++ mkTurn true (Some (mkReply 1 2 0))
         :: [mkTurn false (Some (mkReply 3 4 0))]) scenario_globals =
      Some (mkGlobals (trail_points g1) (trail_head g1) 0,
            t1 ++ [ev_print_caught_signal SIGINT]).
Proof.
  destruct (interrupt_stops_loop 1920 1080 [mkTurn false None]
              [mkTurn false (Some (mkReply 3 4 0))] (Some (mkReply 1 2 0))
              scenario_globals)
    as (g1 & t1 & H1 & H2 & _).
  - split; [reflexivity | unfold TRAIL_LENGTH; simpl; lia].
  - simpl. lia.
  - repeat constructor.
  - exists g1, t1. split; [exact H1 | exact H2].
Defined.

(** X9.  Over a script that runs uninterrupted the loop makes one
    query per turn, sleeps the update interval once per turn and
    100000 microseconds more for each failed query, and ends with the
    buffer that storing the successful replies, in order, gives:
    failed queries leave no gap in it. *)
Theorem loop_stores_successful_replies
    (width height : Z) (script : list turn) (g : globals) :
  wf g -> keep_running g <> 0 -> uninterrupted script ->
  exists g' t,
    main_loop width height script g = Some (g', t) /\
    store_points (successful_replies script) g = Some g' /\
    queries t = length script /\
    slept t = UPDATE_INTERVAL * Z.of_nat (length script)
              + 100000 * Z.of_nat (failed_queries script).
Proof.
  intros Hwf Hrun Hun.
  destruct (main_loop_uninterrupted width height script g Hwf Hrun Hun)
    as (g' & t & Hloop & _ & _ & Hst & Hq & Hs & _).
  exists g', t. repeat split; assumption.
Qed.

Lemma loop_stores_successful_replies_witness :
  exists g' t,
    main_loop 1920 1080
      [ mkTurn false (Some (mkReply 10 10 0)); mkTurn false None;
        mkTurn false (Some (mkReply 20 20 Button1Mask));
        mkTurn false (Some (mkReply 30 30 0)) ] initial_globals = Some (g', t) /\
    store_points [mkReply 10 10 0; mkReply 20 20 Button1Mask; mkReply 30 30 0]
      initial_globals = Some g' /\
    slept t = 4 * 16666 + 100000.
Proof.
  destruct (loop_stores_successful_replies 1920 1080
              [ mkTurn false (Some (mkReply 10 10 0)); mkTurn false None;
                mkTurn false (Some (mkReply 20 20 Button1Mask));
                mkTurn false (Some (mkReply 30 30 0)) ] initial_globals)
    as (g' & t & H1 & H2 & _ & H3).
  - split; [reflexivity | unfold TRAIL_LENGTH; simpl; lia].
  - simpl. lia.
  - repeat constructor.
  - exists g', t. split; [exact H1|]. split; [exact H2 | exact H3].
Defined.

(** ** What a pass leaves on the surface *)

Lemma paint_sample_discs (s : Z * TrailPoint) (cr : cairo_t)
    (ds : list (rgba * float * float)) :
  cr_path cr = [] -> cr_operator cr = CAIRO_OPERATOR_OVER ->
  discs_on (cr_target cr) = Some ds ->
  cr_path (cairo_run (paint_sample s) cr) = [] /\
  cr_operator (cairo_run (paint_sample s) cr) = CAIRO_OPERATOR_OVER /\
  discs_on (cr_target (cairo_run (paint_sample s) cr)) = Some (ds ++ disc_of s).
Proof.
  intros Hpath Hop Hds. unfold paint_sample, disc_of.
  destruct (fade_alpha s.1 <? fade_cutoff)%float.
  - rewrite app_nil_r. repeat split; assumption.
  - unfold paint_point.
    destruct (clicked s.2 =? 0);
      cbn [cairo_run foldl cairo_exec cr_path cr_operator cr_target cr_source];
      rewrite Hpath, Hop; cbn [app discs_on arc_radius arc_angle1 arc_angle2
                                 arc_xc arc_yc];
      rewrite Hds; repeat split; reflexivity.
Qed.

Lemma paint_samples_discs (l : list (Z * TrailPoint)) :
  forall (cr : cairo_t) (ds : list (rgba * float * float)),
    cr_path cr = [] -> cr_operator cr = CAIRO_OPERATOR_OVER ->
    discs_on (cr_target cr) = Some ds ->
    discs_on (cr_target (cairo_run (concat (paint_sample <$> l)) cr)) =
      Some (ds ++ concat (disc_of <$> l)).
Proof.
  induction l as [|s l IH]; intros cr ds Hpath Hop Hds.
  - cbn [fmap list_fmap concat]. rewrite app_nil_r. exact Hds.
  - cbn [fmap list_fmap concat]. rewrite cairo_run_app.
    destruct (paint_sample_discs s cr ds Hpath Hop Hds) as (Hpath' & Hop' & Hds').
    rewrite (IH _ _ Hpath' Hop' Hds'), <- app_assoc. reflexivity.
Qed.

(** X10.  After a pass on a context with no pending path the surface
    is transparent with one full disc of the trail radius for each
    sample drawn, composited over it one at a time in order of age,
    the newest first: where discs overlap, the older one lies on top
    of the newer. *)
Theorem discs_composited_newest_first
    (width height : Z) (g : globals) (cr : cairo_t) :
  wf g -> cr_path cr = [] ->
  exists cr1,
    render width height g cr = Some cr1 /\
    discs_on (cr_target cr1) = Some (concat (disc_of <$> iterate_by_age g)).
Proof.
  intros Hwf Hpath. eexists. split; [apply render_from_clear, Hwf|].
  rewrite Hpath.
  apply (paint_samples_discs (iterate_by_age g) _ []); reflexivity.
Qed.

Lemma discs_composited_newest_first_witness :
  exists cr1,
    render 1920 1080 scenario_globals
      (cairo_create (uniform (1, 1, 1, 1)%float)) = Some cr1 /\
    discs_on (cr_target cr1) =
      Some [ ((0.2, 0.5, 1, 1 * 0.8)%float, 30%float, 30%float);
             ((1, 0, 0, 0.98 * 0.9)%float, 20%float, 20%float);
             ((0.2, 0.5, 1, 0.96 * 0.8)%float, 10%float, 10%float) ].
Proof.
  refine (discs_composited_newest_first 1920 1080 scenario_globals
            (cairo_create (uniform (1, 1, 1, 1)%float)) _ _).
  - split; [reflexivity | unfold TRAIL_LENGTH; simpl; lia].
  - reflexivity.
Defined.

(** ** [main] as a whole *)

Lemma count_events_app (f : main_event -> bool) (t1 t2 : list main_event) :
  count_events f (t1 ++ t2) = (count_events f t1 + count_events f t2)%nat.
Proof. unfold count_events. rewrite List.filter_app. apply length_app. Qed.

Lemma count_events_cons (f : main_event -> bool) (e : main_event)
    (t : list main_event) :
  count_events f (e :: t) = ((if f e then 1 else 0) + count_events f t)%nat.
Proof. unfold count_events. cbn [List.filter]. destruct (f e); reflexivity. Qed.

Lemma count_events_loop (f : main_event -> bool) (t : list event) :
  (forall e, f (me_loop e) = false) ->
  count_events f (me_loop <$> t) = 0%nat.
Proof.
  intros Hf. induction t as [|e t IH]; [reflexivity|].
  unfold count_events in *. cbn [fmap list_fmap List.filter].
  rewrite Hf. exact IH.
Qed.

Lemma loop_events_before_close (t : list event) (rest : list main_event) :
  after_close ((me_loop <$> t) ++ rest) = after_close rest.
Proof. induction t as [|e t IH]; [reflexivity | exact IH]. Qed.

(** The way [main] goes, by what the set-up calls return. *)
Ltac main_cases env :=
  unfold main;
  destruct (display_opens env); cbn [negb];
  [ destruct (vinfo_list_null env); cbn [orb negb];
    [ | destruct (Z.eqb_spec (nitems env) 0); cbn [negb];
        [ | destruct (surface_null env); cbn [negb andb];
            [ | destruct (surface_status_ok env); cbn [negb];
                [ destruct (context_null env); cbn [negb andb];
                  [ | destruct (context_status_ok env); cbn [negb] ]
                | ] ] ] ]
  | ].


(** X12.  When the set-up fails, [main] never enters the loop: it
    makes no pointer query and no drawing call. *)
Theorem failed_setup_never_polls
    (env : x_env) (script : list turn) (code : Z) (t : list main_event) :
  main env script = Some (code, t) -> code <> 0 ->
  count_events is_loop_event t = 0%nat.
Proof.
  destruct (main_loop_wf (display_width env) (display_height env) script
              initial_globals wf_initial) as (g' & tl & Hloop & _).
  intros Hmain Hcode. revert Hmain. main_cases env;
    try rewrite Hloop; cbn [mbind option_bind];
    intros Hmain; injection Hmain as <- <-;
    try (exfalso; apply Hcode; reflexivity);
    unfold set_window_properties, enable_click_through;
    destruct (negb (atom_wm_state env =? Atom_None)
              && negb (atom_wm_state_above env =? Atom_None));
    destruct (negb (atom_wm_window_type env =? Atom_None)
              && negb (atom_wm_window_type_dock env =? Atom_None));
    destruct (xfixes_present env); reflexivity.
Qed.

Lemma failed_setup_never_polls_witness :
  count_events is_loop_event
    [ me_call call_signal true; me_call call_XOpenDisplay true;
      me_call call_XGetVisualInfo false; me_print err_no_visual;
      me_call call_XCloseDisplay true ] = 0%nat.
Proof.
  refine (failed_setup_never_polls
            (mkEnv true 1920 1080 true 0 1 2 3 4 true false true false true)
            [mkTurn false (Some (mkReply 1 1 0))] 1 _ _ _).
  - reflexivity.
  - lia.
Defined.

(** The trace of a run, its conditional parts decided. *)
Ltac main_trace env :=
  unfold set_window_properties, enable_click_through;
  destruct (negb (atom_wm_state env =? Atom_None)
            && negb (atom_wm_state_above env =? Atom_None));
  destruct (negb (atom_wm_window_type env =? Atom_None)
            && negb (atom_wm_window_type_dock env =? Atom_None));
  destruct (xfixes_present env).

(** X13.  Provided [XGetVisualInfo] keeps its contract (a list that is
    not NULL has at least one item), every run of [main] releases what
    it obtained, on the failure paths as on the normal one: the
    display, the visual list, the colormap, the window, the XFixes
    region, the cairo surface and the cairo context are each released
    exactly as often as they were successfully created. *)
Theorem main_releases_what_it_acquired
    (env : x_env) (script : list turn) (code : Z) (t : list main_event)
    (r : resource) :
  (vinfo_list_null env = false -> nitems env <> 0) ->
  main env script = Some (code, t) ->
  count_events (acquires r) t = count_events (releases r) t.
Proof.
  destruct (main_loop_wf (display_width env) (display_height env) script
              initial_globals wf_initial) as (g' & tl & Hloop & _).
  intros Hcontract Hmain. revert Hmain. main_cases env;
    try (exfalso; apply Hcontract; [reflexivity | assumption]);
    try rewrite Hloop; cbn [mbind option_bind];
    intros Hmain; injection Hmain as <- <-;
    main_trace env;
    repeat first
      [ rewrite count_events_app
      | rewrite count_events_cons
      | rewrite (count_events_loop (acquires r)) by reflexivity
      | rewrite (count_events_loop (releases r)) by reflexivity ];
    destruct r; reflexivity.
Qed.

Lemma main_releases_what_it_acquired_witness :
  exists code t,
    main (mkEnv true 1920 1080 false 1 1 2 3 4 true false true false false)
         [] = Some (code, t) /\
    count_events (acquires res_surface) t = 1%nat /\
    count_events (releases res_surface) t = 1%nat.
Proof.
  eexists _, _. split; [reflexivity|].
  pose proof (main_releases_what_it_acquired
                (mkEnv true 1920 1080 false 1 1 2 3 4 true false true false false)
                [] _ _ res_surface ltac:(simpl; lia) eq_refl) as Hbal.
  split; [reflexivity | rewrite <- Hbal; reflexivity].
Defined.

(** X14.  Once [main] has closed the display it makes no further call
    to X or to cairo and runs no more of the loop: all that follows
    [XCloseDisplay] in a run is printed lines. *)
Theorem nothing_after_close
    (env : x_env) (script : list turn) (code : Z) (t : list main_event) :
  main env script = Some (code, t) ->
  Forall (fun e => is_print e = true) (after_close t).
Proof.
  destruct (main_loop_wf (display_width env) (display_height env) script
              initial_globals wf_initial) as (g' & tl & Hloop & _).
  intros Hmain. revert Hmain. main_cases env;
    try rewrite Hloop; cbn [mbind option_bind];
    intros Hmain; injection Hmain as <- <-;
    main_trace env; rewrite <- ?app_assoc; cbn [app after_close];
    rewrite ?loop_events_before_close; cbn [after_close];
    repeat constructor.
Qed.

Lemma nothing_after_close_witness :
  Forall (fun e => is_print e = true)
    (after_close
       [ me_call call_signal true; me_call call_XOpenDisplay true;
         me_call call_XGetVisualInfo false; me_print err_no_visual;
         me_call call_XCloseDisplay true ]).
Proof.
  refine (nothing_after_close
            (mkEnv true 1920 1080 true 0 1 2 3 4 true false true false true)
            [] 1 _ _).
  reflexivity.
Defined.
